(** * Legislative Red Team: identifier utilities, USLM parser and Shadow Code Graph

    A shallow embedding of [src/lib/parser.ts] and [src/lib/graph.ts].

    Conventions of the embedding.
    - A JavaScript string is a [string]; the code under study inspects
      characters only through the separator ['/'], so the alphabet is left
      as [ascii].
    - An [async] method whose body has no [await] resolves with the value of
      its [return]; it is embedded as the function computing that value.
    - A plain object used as a dictionary ([Record<string, string>]) is the
      ordered list of its own properties, with the two places where an
      ordinary object departs from an insertion-ordered map written out:
      assigning a string to the key [__proto__] goes to the setter inherited
      from [Object.prototype] and creates no property, and enumeration lists
      array-index keys first, in ascending numeric order.
    - A [Map<string, V>] is the list of its entries in insertion order. *)

From Stdlib Require Import String Ascii NArith Lia.
From stdpp Require Import base list strings.

Open Scope string_scope.
Open Scope list_scope.

(* ================================================================== *)
(** ** JavaScript strings: [split] and truthiness *)
(* ================================================================== *)

Module JsString.

(** [s.split(sep)] for a one-character separator: the pieces between
    successive separators, empty pieces included; never the empty list. *)
Fixpoint split (sep : ascii) (s : string) : list string :=
  match s with
  | EmptyString => [EmptyString]
  | String c s' =>
      if Ascii.eqb c sep then EmptyString :: split sep s'
      else match split sep s' with
           | piece :: pieces => String c piece :: pieces
           | [] => [String c EmptyString]
           end
  end.

(** [Boolean(s)] on a string: every string but the empty one is truthy. *)
Definition truthy (s : string) : Prop := s <> EmptyString.

#[global] Instance truthy_dec s : Decision (truthy s).
Proof. unfold truthy. apply _. Defined.

(** Does the character occur in the string? *)
Fixpoint mem (c : ascii) (s : string) : bool :=
  match s with
  | EmptyString => false
  | String c' s' => Ascii.eqb c' c || mem c s'
  end.

End JsString.

(* ================================================================== *)
(** ** Plain objects used as string dictionaries *)
(* ================================================================== *)

Module JsObject.

(** Own enumerable properties, in order of creation. *)
Definition t : Type := list (string * string).

Definition empty : t := [].

Definition keys (o : t) : list string := o.*1.

(** Own-property lookup. *)
Fixpoint get (k : string) (o : t) : option string :=
  match o with
  | [] => None
  | (k', v') :: o' => if String.eqb k' k then Some v' else get k o'
  end.

(** Overwrite the value of an existing own property; its position in the
    creation order is kept. *)
Fixpoint overwrite (k v : string) (o : t) : t :=
  match o with
  | [] => []
  | (k', v') :: o' =>
      if String.eqb k' k then (k', v) :: o' else (k', v') :: overwrite k v o'
  end.

(** [o[k] = v] with [v] a string, on an object created by [{}].
    [__proto__] is an accessor inherited from [Object.prototype]; its
    setter ignores a value that is neither an object nor [null], so the
    assignment leaves the object as it was.  Every other inherited
    property is a writable data property, so the assignment defines or
    updates an own property. *)
Definition set (k v : string) (o : t) : t :=
  if String.eqb k "__proto__" then o
  else match get k o with
       | Some _ => overwrite k v o
       | None => o ++ [(k, v)]
       end.

(** *** Enumeration order *)

Definition digit (c : ascii) : option N :=
  let n := N_of_ascii c in
  if ((48 <=? n) && (n <=? 57))%N then Some (n - 48)%N else None.

Fixpoint digits (s : string) (acc : N) : option N :=
  match s with
  | EmptyString => Some acc
  | String c s' =>
      match digit c with
      | Some d => digits s' (10 * acc + d)%N
      | None => None
      end
  end.

(** A property key is an array index when it is the canonical decimal
    numeral of an integer in [0, 2^32 - 2]. *)
Definition array_index (k : string) : option N :=
  match k with
  | EmptyString => None
  | String c rest =>
      if Ascii.eqb c "0" && negb (String.eqb rest EmptyString) then None
      else match digits k 0 with
           | Some n => if (n <? 4294967295)%N then Some n else None
           | None => None
           end
  end.

Fixpoint insert_sorted (i : N) (kv : string * string)
    (l : list (N * (string * string))) : list (N * (string * string)) :=
  match l with
  | [] => [(i, kv)]
  | (j, kv') :: l' =>
      if (i <? j)%N then (i, kv) :: l
      else (j, kv') :: insert_sorted i kv l'
  end.

Fixpoint index_entries (o : t) : list (N * (string * string)) :=
  match o with
  | [] => []
  | (k, v) :: o' =>
      match array_index k with
      | Some i => insert_sorted i (k, v) (index_entries o')
      | None => index_entries o'
      end
  end.

Fixpoint string_entries (o : t) : t :=
  match o with
  | [] => []
  | (k, v) :: o' =>
      match array_index k with
      | Some _ => string_entries o'
      | None => (k, v) :: string_entries o'
      end
  end.

(** [Object.entries(o)]: array-index keys in ascending numeric order, then
    the remaining keys in order of creation. *)
Definition entries (o : t) : list (string * string) :=
  (index_entries o).*2 ++ string_entries o.

End JsObject.

(* ================================================================== *)
(** ** [parseIdentifier] (src/lib/parser.ts) *)
(* ================================================================== *)

(** [identifier.split('/').filter(Boolean)] *)
Definition segments (identifier : string) : list string :=
  filter JsString.truthy (JsString.split "/" identifier).

(** The loop
    [for (let i = 0; i < parts.length; i += 2)
       if (i + 1 < parts.length) result[parts[i]] = parts[i + 1];]
    with the number of remaining iterations bounded by [fuel]. *)
Fixpoint pair_loop (fuel i : nat) (parts : list string) (result : JsObject.t)
    : JsObject.t :=
  match fuel with
  | 0 => result
  | S fuel' =>
      if decide (i < length parts) then
        let result' :=
          if decide (i + 1 < length parts) then
            match parts !! i, parts !! (i + 1) with
            | Some k, Some v => JsObject.set k v result
            | _, _ => result
            end
          else result in
        pair_loop fuel' (i + 2) parts result'
      else result
  end.

(** The index advances by two, so [length parts] iterations always reach the
    exit test. *)
Definition parseIdentifier (identifier : string) : JsObject.t :=
  let parts := segments identifier in
  pair_loop (length parts) 0 parts JsObject.empty.

(** The assignments the loop performs, in order: [(parts[2i], parts[2i+1])]. *)
Fixpoint pairs (parts : list string) : list (string * string) :=
  match parts with
  | k :: v :: rest => (k, v) :: pairs rest
  | _ => []
  end.

Definition assign_all (ps : list (string * string)) (o : JsObject.t) : JsObject.t :=
  foldl (fun acc kv => JsObject.set kv.1 kv.2 acc) o ps.

(** *** Vocabulary of the claims about [parseIdentifier]

    These definitions follow the wording of the specification; none of them
    is part of the source. *)

(** The value written by the last assignment to key [k], if any. *)
Fixpoint last_assigned (k : string) (ps : list (string * string)) : option string :=
  match ps with
  | [] => None
  | (k', v') :: ps' =>
      match last_assigned k ps' with
      | Some v => Some v
      | None => if String.eqb k' k then Some v' else None
      end
  end.

(** "the mapping that pairs consecutive segments": key [segment[2i]] is sent
    to value [segment[2i+1]]. *)
Definition spec_mapping (identifier : string) (k : string) : option string :=
  last_assigned k (pairs (segments identifier)).

(** Segments written back as a path, each one preceded by ['/']. *)
Fixpoint join_segments (segs : list string) : string :=
  match segs with
  | [] => EmptyString
  | seg :: segs' => String "/" (seg +:+ join_segments segs')
  end.

(** "re-joining key/value pairs in order (prefixed and separated by '/')". *)
Fixpoint rejoin (kvs : list (string * string)) : string :=
  match kvs with
  | [] => EmptyString
  | (k, v) :: kvs' => String "/" (k +:+ String "/" (v +:+ rejoin kvs'))
  end.

(** A well-formed path is exactly its nonempty segments, each preceded by
    one ['/']: no doubled, trailing or missing separator. *)
Definition well_formed_path (identifier : string) : Prop :=
  join_segments (segments identifier) = identifier.

#[global] Instance well_formed_path_dec identifier : Decision (well_formed_path identifier).
Proof. unfold well_formed_path. apply _. Defined.

Definition even_segment_count (identifier : string) : Prop :=
  Nat.even (length (segments identifier)) = true.

(* ================================================================== *)
(** ** [USLMParser] (src/lib/parser.ts) *)
(* ================================================================== *)

Module RefType.
(** ['citation' | 'amendment' | 'repeal' | 'definition'] *)
Inductive t : Type := citation | amendment | repeal | definition.

#[global] Instance eq_dec : EqDecision t.
Proof. solve_decision. Defined.
End RefType.

Module USLMReference.
Record t : Type := mk {
  type : RefType.t;
  target : string;
  text : string
}.
End USLMReference.

Module USLMElement.
(** Optional fields ([num?], [children?], ...) are [option]s. *)
#[warnings="-register-all"]
Inductive t : Type := mk {
  type : string;
  identifier : string;
  num : option string;
  heading : option string;
  content : option string;
  children : option (list t);
  refs : option (list USLMReference.t)
}.
End USLMElement.

Module USLMDocument.
Record t : Type := mk {
  docType : string;
  identifier : string;
  root : USLMElement.t;
  references : list USLMReference.t
}.
End USLMDocument.

Module ValidationResult.
Record t : Type := mk {
  valid : bool;
  errors : list string
}.
End ValidationResult.

Module USLMParser.

(** [async parse(_xmlContent)]: the argument is not read. *)
Definition parse (_xmlContent : string) : USLMDocument.t :=
  {| USLMDocument.docType := "unknown";
     USLMDocument.identifier := EmptyString;
     USLMDocument.root :=
       {| USLMElement.type := "document";
          USLMElement.identifier := EmptyString;
          USLMElement.num := None;
          USLMElement.heading := None;
          USLMElement.content := None;
          USLMElement.children := Some [];
          USLMElement.refs := Some [] |};
     USLMDocument.references := [] |}.

Definition extractReferences (_element : USLMElement.t) : list USLMReference.t := [].

Definition buildIdentifierPath (_element : USLMElement.t) : string := EmptyString.

Definition extractHierarchy (_xmlContent : string) : list USLMElement.t := [].

(** [async validate(_xmlContent)]: the argument is not read. *)
Definition validate (_xmlContent : string) : ValidationResult.t :=
  {| ValidationResult.valid := true;
     ValidationResult.errors := [] |}.

End USLMParser.

(** The document of Scenario E; [dquote] is the double-quote character. *)
Definition dquote : string := String (ascii_of_nat 34) EmptyString.

Definition scenario_E_xml : string :=
  "<bill identifier=" +:+ dquote +:+ "/us/bill/118/hr/1" +:+ dquote +:+ ">"
  +:+ "<section identifier=" +:+ dquote +:+ "/us/bill/118/hr/1/s1" +:+ dquote +:+ ">"
  +:+ "<ref href=" +:+ dquote +:+ "/us/usc/t42/s1983" +:+ dquote +:+ ">"
  +:+ "42 U.S.C. 1983</ref></section></bill>".

(* ================================================================== *)
(** ** [Map<string, V>] *)
(* ================================================================== *)

Module JsMap.
Section WithValue.
Context {V : Type}.

(** Entries in insertion order. *)
Definition t : Type := list (string * V).

Definition empty : t := [].

(** [m.get(k)]; [None] stands for [undefined]. *)
Fixpoint get (k : string) (m : t) : option V :=
  match m with
  | [] => None
  | (k', v') :: m' => if String.eqb k' k then Some v' else get k m'
  end.

(** [m.set(k, v)]: an existing key keeps its place and takes the new
    value, a new key goes to the end. *)
Fixpoint set (k : string) (v : V) (m : t) : t :=
  match m with
  | [] => [(k, v)]
  | (k', v') :: m' =>
      if String.eqb k' k then (k', v) :: m' else (k', v') :: set k v m'
  end.

(** [m.size] *)
Definition size (m : t) : nat := length m.

(** [m.keys()] and [m.values()], in insertion order. *)
Definition keys (m : t) : list string := m.*1.
Definition values (m : t) : list V := m.*2.
End WithValue.
Arguments t : clear implicits.
End JsMap.

(* ================================================================== *)
(** ** [ShadowCodeGraph] (src/lib/graph.ts) *)
(* ================================================================== *)

Module NodeType.
(** ['title' | 'subtitle' | 'chapter' | 'subchapter' | 'part' | 'section'] *)
Inductive t : Type := title | subtitle | chapter | subchapter | part | section.

#[global] Instance eq_dec : EqDecision t.
Proof. solve_decision. Defined.
End NodeType.

Module USLMNode.
Record t : Type := mk {
  identifier : string;
  citation : string;
  nodeType : NodeType.t
}.

#[global] Instance eq_dec : EqDecision t.
Proof. solve_decision. Defined.
End USLMNode.

Module USLMEdge.
Record t : Type := mk {
  from : string;
  to : string;
  refType : RefType.t;
  context : option string
}.

#[global] Instance eq_dec : EqDecision t.
Proof. solve_decision. Defined.
End USLMEdge.

Module Severity.
(** ['high' | 'medium' | 'low'] *)
Inductive t : Type := high | medium | low.
End Severity.

Module Finding.
(** An element of the array [detectLoopholes] resolves with. *)
Record t : Type := mk {
  type : string;
  severity : Severity.t;
  description : string;
  affectedNodes : list string
}.
End Finding.

Module ShadowCodeGraph.

(** The two private fields of the class. *)
Record t : Type := mk {
  nodes : JsMap.t USLMNode.t;
  edges : list USLMEdge.t
}.

(** [new ShadowCodeGraph()] *)
Definition create : t := {| nodes := JsMap.empty; edges := [] |}.

(** [this.nodes.set(node.identifier, node)] *)
Definition addNode (node : USLMNode.t) (g : t) : t :=
  {| nodes := JsMap.set (USLMNode.identifier node) node (nodes g);
     edges := edges g |}.

(** [this.edges.push(edge)] *)
Definition addEdge (edge : USLMEdge.t) (g : t) : t :=
  {| nodes := nodes g;
     edges := edges g ++ [edge] |}.

(** [this.nodes.get(identifier)] *)
Definition getNode (identifier : string) (g : t) : option USLMNode.t :=
  JsMap.get identifier (nodes g).

(** [this.edges.filter(edge => edge.from === identifier)] *)
Definition getEdgesFrom (identifier : string) (g : t) : list USLMEdge.t :=
  filter (fun edge => USLMEdge.from edge = identifier) (edges g).

(** [this.edges.filter(edge => edge.to === identifier)] *)
Definition getEdgesTo (identifier : string) (g : t) : list USLMEdge.t :=
  filter (fun edge => USLMEdge.to edge = identifier) (edges g).

(** [Array.from(this.nodes.values())] *)
Definition getAllNodes (g : t) : list USLMNode.t :=
  JsMap.values (nodes g).

(** [[...this.edges]] *)
Definition getAllEdges (g : t) : list USLMEdge.t :=
  edges g.

(** [async detectLoopholes()]: the fields are not read. *)
Definition detectLoopholes (_g : t) : list Finding.t := [].

(** [this.nodes.size] *)
Definition nodeCount (g : t) : nat := JsMap.size (nodes g).

(** *** The public methods as operations on the store

    A call takes the store to the next store and answers with a value.
    The queries and [detectLoopholes] assign neither field. *)

Inductive op : Type :=
| AddNode (node : USLMNode.t)
| AddEdge (edge : USLMEdge.t)
| GetNode (identifier : string)
| GetEdgesFrom (identifier : string)
| GetEdgesTo (identifier : string)
| GetAllNodes
| GetAllEdges
| DetectLoopholes.

Inductive answer : Type :=
| Void
| Node (n : option USLMNode.t)
| Edges (es : list USLMEdge.t)
| Nodes (ns : list USLMNode.t)
| Findings (fs : list Finding.t).

Definition step (o : op) (g : t) : t * answer :=
  match o with
  | AddNode node => (addNode node g, Void)
  | AddEdge edge => (addEdge edge g, Void)
  | GetNode identifier => (g, Node (getNode identifier g))
  | GetEdgesFrom identifier => (g, Edges (getEdgesFrom identifier g))
  | GetEdgesTo identifier => (g, Edges (getEdgesTo identifier g))
  | GetAllNodes => (g, Nodes (getAllNodes g))
  | GetAllEdges => (g, Edges (getAllEdges g))
  | DetectLoopholes => (g, Findings (detectLoopholes g))
  end.

(** The store after a sequence of calls. *)
Definition run (os : list op) (g : t) : t :=
  foldl (fun acc o => (step o acc).1) g os.

(** The stores a client can reach from a fresh graph. *)
Definition reachable (g : t) : Prop := exists os, g = run os create.

(** The edges passed to [addEdge] by a sequence of calls, in call order. *)
Fixpoint added_edges (os : list op) : list USLMEdge.t :=
  match os with
  | [] => []
  | AddEdge edge :: os' => edge :: added_edges os'
  | _ :: os' => added_edges os'
  end.

(** Edges whose target is not a key of the node map; vocabulary of the
    dangling-reference claim, not part of the source. *)
Definition dangling_edges (g : t) : list USLMEdge.t :=
  filter (fun edge => getNode (USLMEdge.to edge) g = None) (edges g).

End ShadowCodeGraph.

(** [createGraph()] *)
Definition createGraph : ShadowCodeGraph.t := ShadowCodeGraph.create.

(* ================================================================== *)
(** ** Auxiliary notions used in the proofs *)
(* ================================================================== *)

(** Two objects with the same keys in the same order, no key twice, whose
    values agree under every key except possibly [k]. *)
Definition agree_off (k : string) (a b : JsObject.t) : Prop :=
  JsObject.keys a = JsObject.keys b /\
  NoDup (JsObject.keys a) /\
  forall k', k' <> k -> JsObject.get k' a = JsObject.get k' b.

(** Every entry of the node map is filed under the identifier of its node. *)
Definition keyed_by_identifier (m : JsMap.t USLMNode.t) : Prop :=
  Forall (fun kv => kv.1 = USLMNode.identifier kv.2) m.

(** The node map of a store has no key twice and files every node under
    its own identifier. *)
Definition nodes_ok (g : ShadowCodeGraph.t) : Prop :=
  NoDup (JsMap.keys (ShadowCodeGraph.nodes g)) /\
  keyed_by_identifier (ShadowCodeGraph.nodes g).

(** The store of Scenario C: one edge whose target has no node. *)
Definition scenario_C_edge : USLMEdge.t :=
  {| USLMEdge.from := "/us/bill/118/hr/1";
     USLMEdge.to := "/us/usc/t99/s404";
     USLMEdge.refType := RefType.citation;
     USLMEdge.context := None |}.

Definition scenario_C_graph : ShadowCodeGraph.t :=
  ShadowCodeGraph.addEdge scenario_C_edge createGraph.

(** Two nodes filed under the same identifier, and an edge between known
    sections, used to exercise the store. *)
Definition section_1983_old : USLMNode.t :=
  {| USLMNode.identifier := "/us/usc/t42/s1983";
     USLMNode.citation := "42 USC 1983";
     USLMNode.nodeType := NodeType.chapter |}.

Definition section_1983_new : USLMNode.t :=
  {| USLMNode.identifier := "/us/usc/t42/s1983";
     USLMNode.citation := "42 U.S.C. 1983";
     USLMNode.nodeType := NodeType.section |}.

Definition edge_to_1983 : USLMEdge.t :=
  {| USLMEdge.from := "/us/bill/118/hr/1";
     USLMEdge.to := "/us/usc/t42/s1983";
     USLMEdge.refType := RefType.citation;
     USLMEdge.context := Some "42 U.S.C. 1983" |}.

(* ================================================================== *)
(** ** Vocabulary of the further properties *)
(* ================================================================== *)

(** What a segment can be: a nonempty string without separator. *)
Definition segment_ok (seg : string) : Prop :=
  JsString.truthy seg /\ JsString.mem "/" seg = false.

#[global] Instance segment_ok_dec seg : Decision (segment_ok seg).
Proof. unfold segment_ok. apply _. Defined.


(** The nodes passed to [addNode] by a sequence of calls, in call order. *)
Fixpoint added_nodes (os : list ShadowCodeGraph.op) : list USLMNode.t :=
  match os with
  | [] => []
  | ShadowCodeGraph.AddNode node :: os' => node :: added_nodes os'
  | _ :: os' => added_nodes os'
  end.

(** The last of the given nodes that carries the identifier. *)
Definition last_with_identifier (identifier : string) (ns : list USLMNode.t)
    : option USLMNode.t :=
  last (filter (fun n => USLMNode.identifier n = identifier) ns).

(** The elements of [ks] that are not in [seen], each at its first
    occurrence only, in order. *)
Fixpoint first_occurrences (seen ks : list string) : list string :=
  match ks with
  | [] => []
  | k :: ks' =>
      if decide (k ∈ seen) then first_occurrences seen ks'
      else k :: first_occurrences (k :: seen) ks'
  end.

(* ================================================================== *)
(** * Properties *)
(* ================================================================== *)

(** ** Plain objects *)

Section JsObjectFacts.
Implicit Types (o : JsObject.t) (k v : string).

Lemma eqb_string_true k : String.eqb k k = true.
Proof. apply String.eqb_refl. Qed.

Lemma eqb_string_false k k' : k <> k' -> String.eqb k k' = false.
Proof. intros H. by apply String.eqb_neq. Qed.

Lemma jsobject_get_None o k : JsObject.get k o = None <-> k ∉ JsObject.keys o.
Proof.
  unfold JsObject.keys. induction o as [|[k' v'] o IH]; simpl.
  - split; [intros _; apply not_elem_of_nil | done].
  - rewrite not_elem_of_cons. destruct (String.eqb_spec k' k) as [->|Hne].
    + split; [done | intros [? _]; done].
    + rewrite IH. split; [intros ?; split; [congruence | done] | intros [_ ?]; done].
Qed.

Lemma jsobject_get_Some_key o k v : JsObject.get k o = Some v -> k ∈ JsObject.keys o.
Proof.
  intros H. destruct (decide (k ∈ JsObject.keys o)) as [|Hn]; [done|].
  apply jsobject_get_None in Hn. congruence.
Qed.

Lemma jsobject_keys_overwrite o k v :
  JsObject.keys (JsObject.overwrite k v o) = JsObject.keys o.
Proof.
  unfold JsObject.keys. induction o as [|[k' v'] o IH]; csimpl; [done|].
  destruct (String.eqb k' k); csimpl; [done | by rewrite IH].
Qed.

Lemma jsobject_get_overwrite_eq o k v :
  k ∈ JsObject.keys o -> JsObject.get k (JsObject.overwrite k v o) = Some v.
Proof.
  unfold JsObject.keys. induction o as [|[k' v'] o IH]; simpl.
  - intros H. by apply elem_of_nil in H.
  - intros H. destruct (String.eqb_spec k' k) as [->|Hne]; simpl.
    + by rewrite eqb_string_true.
    + rewrite eqb_string_false by done. apply IH.
      apply elem_of_cons in H as [?|?]; [congruence | done].
Qed.

Lemma jsobject_get_overwrite_ne o k k' v :
  k <> k' -> JsObject.get k' (JsObject.overwrite k v o) = JsObject.get k' o.
Proof.
  intros Hne. induction o as [|[k0 v0] o IH]; simpl; [done|].
  destruct (String.eqb_spec k0 k) as [->|Hne0]; simpl.
  - by rewrite eqb_string_false.
  - destruct (String.eqb k0 k'); [done | apply IH].
Qed.

Lemma jsobject_get_app o o' k :
  JsObject.get k (o ++ o') =
    match JsObject.get k o with Some v => Some v | None => JsObject.get k o' end.
Proof.
  induction o as [|[k0 v0] o IH]; simpl; [done|].
  destruct (String.eqb k0 k); [done | apply IH].
Qed.

(** Assigning to [__proto__] changes nothing. *)
Lemma jsobject_set_proto o v : JsObject.set "__proto__" v o = o.
Proof. reflexivity. Qed.

Lemma jsobject_set_unfold o k v :
  k <> "__proto__" ->
  JsObject.set k v o =
    match JsObject.get k o with
    | Some _ => JsObject.overwrite k v o
    | None => o ++ [(k, v)]
    end.
Proof. intros H. unfold JsObject.set. by rewrite eqb_string_false. Qed.

Lemma jsobject_get_set_eq o k v :
  k <> "__proto__" -> JsObject.get k (JsObject.set k v o) = Some v.
Proof.
  intros H. rewrite jsobject_set_unfold by done.
  destruct (JsObject.get k o) eqn:E.
  - apply jsobject_get_overwrite_eq. by eapply jsobject_get_Some_key.
  - rewrite jsobject_get_app, E. simpl. by rewrite eqb_string_true.
Qed.

Lemma jsobject_get_set_ne o k k' v :
  k <> k' -> JsObject.get k' (JsObject.set k v o) = JsObject.get k' o.
Proof.
  intros Hne. unfold JsObject.set.
  destruct (String.eqb k "__proto__"); [done|].
  destruct (JsObject.get k o) eqn:E.
  - by apply jsobject_get_overwrite_ne.
  - rewrite jsobject_get_app. simpl. rewrite eqb_string_false by done.
    by destruct (JsObject.get k' o).
Qed.

Lemma jsobject_keys_set o k v :
  JsObject.keys (JsObject.set k v o) =
    if decide (k = "__proto__" \/ k ∈ JsObject.keys o) then JsObject.keys o
    else JsObject.keys o ++ [k].
Proof.
  unfold JsObject.set. destruct (String.eqb_spec k "__proto__") as [->|Hne].
  - rewrite decide_True; [done | by left].
  - destruct (JsObject.get k o) eqn:E.
    + rewrite jsobject_keys_overwrite, decide_True; [done|].
      right. by eapply jsobject_get_Some_key.
    + apply jsobject_get_None in E. rewrite decide_False by tauto.
      unfold JsObject.keys. by rewrite fmap_app.
Qed.

Lemma jsobject_keys_set_NoDup o k v :
  NoDup (JsObject.keys o) -> NoDup (JsObject.keys (JsObject.set k v o)).
Proof.
  intros H. rewrite jsobject_keys_set. case_decide as Hk; [done|].
  apply NoDup_app. split_and!; [done | | apply NoDup_singleton].
  intros x Hx Hx'. apply list_elem_of_singleton in Hx'. subst. tauto.
Qed.

(** Two objects with the same keys in the same order, no key twice, and the
    same value under every key are the same object. *)
Lemma jsobject_ext o o' :
  JsObject.keys o = JsObject.keys o' ->
  NoDup (JsObject.keys o) ->
  (forall k, JsObject.get k o = JsObject.get k o') ->
  o = o'.
Proof.
  unfold JsObject.keys. revert o'.
  induction o as [|[k v] o IH]; intros [|[k' v'] o'] Hk Hnd Hget;
    csimpl in *; try done.
  injection Hk as -> Hk. apply NoDup_cons in Hnd as [Hnotin Hnd].
  pose proof (Hget k') as Hk'. rewrite eqb_string_true in Hk'.
  injection Hk' as ->. f_equal. apply IH; [done..|].
  intros k. specialize (Hget k).
  destruct (String.eqb_spec k' k) as [->|Hne]; [|done].
  assert (JsObject.get k o = None) as -> by by apply jsobject_get_None.
  symmetry. apply jsobject_get_None. unfold JsObject.keys. by rewrite <- Hk.
Qed.

End JsObjectFacts.

(** ** The assignments of [parseIdentifier] *)

Section AssignAll.
Implicit Types (o : JsObject.t) (k v : string) (ps : list (string * string)).

Lemma assign_all_cons k v ps o :
  assign_all ((k, v) :: ps) o = assign_all ps (JsObject.set k v o).
Proof. reflexivity. Qed.

Lemma assign_all_app ps qs o :
  assign_all (ps ++ qs) o = assign_all qs (assign_all ps o).
Proof. unfold assign_all. apply foldl_app. Qed.

Lemma assign_all_keys_NoDup ps o :
  NoDup (JsObject.keys o) -> NoDup (JsObject.keys (assign_all ps o)).
Proof.
  revert o. induction ps as [|[k v] ps IH]; intros o H; [done|].
  rewrite assign_all_cons. by apply IH, jsobject_keys_set_NoDup.
Qed.

(** A key other than [__proto__] reads the value of its last assignment. *)
Lemma jsobject_get_assign_all ps o k :
  k <> "__proto__" ->
  JsObject.get k (assign_all ps o) =
    match last_assigned k ps with
    | Some v => Some v
    | None => JsObject.get k o
    end.
Proof.
  intros Hk. revert o. induction ps as [|[k' v'] ps IH]; intros o; [done|].
  rewrite assign_all_cons, IH. simpl.
  destruct (last_assigned k ps); [done|].
  destruct (String.eqb_spec k' k) as [->|Hne].
  - by apply jsobject_get_set_eq.
  - by apply jsobject_get_set_ne.
Qed.

(** No assignment ever makes [__proto__] an own property. *)
Lemma jsobject_get_assign_all_proto ps o :
  JsObject.get "__proto__" (assign_all ps o) = JsObject.get "__proto__" o.
Proof.
  revert o. induction ps as [|[k' v'] ps IH]; intros o; [done|].
  rewrite assign_all_cons, IH.
  destruct (String.eqb_spec k' "__proto__") as [->|Hne]; [done|].
  by apply jsobject_get_set_ne.
Qed.

Lemma jsobject_get_assign_all_Some ps k v :
  JsObject.get k (assign_all ps JsObject.empty) = Some v ->
  last_assigned k ps = Some v.
Proof.
  destruct (decide (k = "__proto__")) as [->|Hk].
  - by rewrite jsobject_get_assign_all_proto.
  - rewrite jsobject_get_assign_all by done.
    by destruct (last_assigned k ps).
Qed.

(** Distinct fresh keys are appended in the order they are assigned. *)
Lemma assign_all_fresh ps o :
  NoDup ps.*1 ->
  Forall (fun k => k <> "__proto__" /\ k ∉ JsObject.keys o) ps.*1 ->
  assign_all ps o = o ++ ps.
Proof.
  revert o. induction ps as [|[k v] ps IH]; intros o Hnd Hfresh;
    csimpl in Hnd; csimpl in Hfresh.
  - unfold assign_all. simpl. by rewrite app_nil_r.
  - apply NoDup_cons in Hnd as [Hk Hnd].
    apply Forall_cons in Hfresh as [[Hproto Hnew] Hfresh].
    rewrite assign_all_cons, jsobject_set_unfold by done.
    apply jsobject_get_None in Hnew. rewrite Hnew.
    rewrite IH, <- app_assoc; [done..|].
    apply Forall_forall. intros k' Hin.
    rewrite Forall_forall in Hfresh. destruct (Hfresh k' Hin) as [Hp Hn].
    split; [done|].
    unfold JsObject.keys. rewrite fmap_app. csimpl.
    rewrite not_elem_of_app, list_elem_of_singleton. split; [done|].
    intros ->. done.
Qed.

(** *** Objects that agree except under one key *)

Lemma agree_off_set_same k v a b :
  k <> "__proto__" -> agree_off k a b -> JsObject.set k v a = JsObject.set k v b.
Proof.
  intros Hk (Hkeys & Hnd & Hget). apply jsobject_ext.
  - by rewrite !jsobject_keys_set, Hkeys.
  - by apply jsobject_keys_set_NoDup.
  - intros k'. destruct (decide (k = k')) as [<-|Hne].
    + by rewrite !jsobject_get_set_eq.
    + rewrite !jsobject_get_set_ne by done. by apply Hget.
Qed.

Lemma agree_off_set_other k k' v' a b :
  agree_off k a b -> agree_off k (JsObject.set k' v' a) (JsObject.set k' v' b).
Proof.
  intros (Hkeys & Hnd & Hget). split_and!.
  - by rewrite !jsobject_keys_set, Hkeys.
  - by apply jsobject_keys_set_NoDup.
  - intros k'' Hk''. destruct (decide (k' = "__proto__")) as [->|Hp].
    { rewrite !jsobject_set_proto. by apply Hget. }
    destruct (decide (k' = k'')) as [<-|Hne].
    + by rewrite !jsobject_get_set_eq.
    + rewrite !jsobject_get_set_ne by done. by apply Hget.
Qed.

Lemma assign_all_agree_off k ps a b :
  k <> "__proto__" -> agree_off k a b -> k ∈ ps.*1 ->
  assign_all ps a = assign_all ps b.
Proof.
  intros Hk. revert a b. induction ps as [|[k' v'] ps IH]; intros a b HR Hin;
    csimpl in Hin.
  - by apply elem_of_nil in Hin.
  - rewrite !assign_all_cons. destruct (decide (k' = k)) as [->|Hne].
    + by rewrite (agree_off_set_same k v' a b).
    + apply IH; [by apply agree_off_set_other|].
      apply elem_of_cons in Hin as [?|?]; [congruence | done].
Qed.

(** The value of an assignment that is followed by another assignment to
    the same key leaves no trace in the final object. *)
Lemma assign_all_forgets ps1 k v1 v1' ps2 :
  k ∈ ps2.*1 ->
  assign_all (ps1 ++ (k, v1) :: ps2) JsObject.empty =
  assign_all (ps1 ++ (k, v1') :: ps2) JsObject.empty.
Proof.
  intros Hin. rewrite !assign_all_app, !assign_all_cons.
  destruct (decide (k = "__proto__")) as [->|Hk]; [done|].
  apply (assign_all_agree_off k); [done| |done].
  assert (NoDup (JsObject.keys (assign_all ps1 JsObject.empty))) as Hnd.
  { apply assign_all_keys_NoDup. apply NoDup_nil_2. }
  split_and!.
  - by rewrite !jsobject_keys_set.
  - by apply jsobject_keys_set_NoDup.
  - intros k' Hk'. by rewrite !jsobject_get_set_ne.
Qed.

(** *** Which keys end up in the object, and how many *)

Lemma assign_all_keys_elem_of ps o k :
  k ∈ JsObject.keys (assign_all ps o) -> k ∈ JsObject.keys o \/ k ∈ ps.*1.
Proof.
  revert o. induction ps as [|[k' v'] ps IH]; intros o Hin; [by left|].
  rewrite assign_all_cons in Hin. rewrite fmap_cons. cbn [fst].
  destruct (IH _ Hin) as [Hset|Hps]; [|right; by apply elem_of_cons; right].
  rewrite jsobject_keys_set in Hset. case_decide; [by left|].
  apply elem_of_app in Hset as [?|Hk]; [by left|].
  apply list_elem_of_singleton in Hk as ->. right. by apply elem_of_cons; left.
Qed.

Lemma last_assigned_None k ps : last_assigned k ps = None <-> k ∉ ps.*1.
Proof.
  induction ps as [|[k' v'] ps IH]; [split; [intros _; apply not_elem_of_nil | done]|].
  rewrite fmap_cons, not_elem_of_cons. cbn [fst last_assigned].
  destruct (last_assigned k ps) as [v|].
  - split; [done|]. intros [_ Hk]. by apply IH in Hk.
  - destruct (String.eqb_spec k' k) as [->|Hne].
    + split; [done | intros [? _]; done].
    + split; [intros _; split; [congruence | by apply IH] | done].
Qed.

(** [last_assigned] picks the pair with the given key after which the key
    does not occur again. *)
Lemma last_assigned_Some k v ps :
  last_assigned k ps = Some v <->
  exists i, ps !! i = Some (k, v) /\
            forall j v', i < j -> ps !! j <> Some (k, v').
Proof.
  revert v. induction ps as [|[k' v'] ps IH]; intros v.
  - split; [done | intros (i & Hi & _); by rewrite lookup_nil in Hi].
  - cbn [last_assigned]. destruct (last_assigned k ps) as [w|] eqn:E.
    + destruct (proj1 (IH w) eq_refl) as (iw & Hiw & Hlastw). split.
      * intros [= <-]. exists (S iw). split; [done|].
        intros [|j] v'' Hj; [lia|]. apply Hlastw. lia.
      * intros ([|i] & Hi & Hlast).
        -- exfalso. apply (Hlast (S iw) w); [lia | done].
        -- f_equal. assert (Some w = Some v) as [= ->]; [|done].
           apply IH. exists i. split; [done|]. intros j v'' Hj.
           apply (Hlast (S j)). lia.
    + apply last_assigned_None in E.
      assert (forall j v'', ps !! j <> Some (k, v'')) as Hnone.
      { intros j v'' Hj. apply E. apply list_elem_of_fmap.
        exists (k, v''). split; [done|]. by eapply list_elem_of_lookup_2. }
      destruct (String.eqb_spec k' k) as [->|Hne].
      * split.
        -- intros [= ->]. exists 0. split; [done|].
           intros [|j] v'' Hj; [lia | apply Hnone].
        -- intros ([|i] & Hi & _); [by injection Hi as -> | by apply Hnone in Hi].
      * split; [done|]. intros ([|i] & Hi & _).
        -- injection Hi as -> ->. done.
        -- by apply Hnone in Hi.
Qed.

End AssignAll.

(** ** The loop of [parseIdentifier] *)

Section PairLoop.
Implicit Types (parts : list string) (o : JsObject.t).

(** Induction over a list two elements at a time. *)
Lemma list_pair_ind (P : list string -> Prop) :
  P [] -> (forall x, P [x]) ->
  (forall k v rest, P rest -> P (k :: v :: rest)) ->
  forall parts, P parts.
Proof.
  intros Hnil Hone Hstep parts.
  assert (P parts /\ forall x, P (x :: parts)) as [? _]; [|done].
  induction parts as [|y parts [IH1 IH2]]; [by split|].
  split; [apply IH2|]. intros x. by apply Hstep.
Qed.

(** With enough iterations allowed, the loop started at index [i]
    performs exactly the assignments of the pairs from [i] on. *)
Lemma pair_loop_drop fuel i parts o :
  length parts - i <= fuel ->
  pair_loop fuel i parts o = assign_all (pairs (drop i parts)) o.
Proof.
  revert i o. induction fuel as [|fuel IH]; intros i o Hfuel; simpl.
  - rewrite drop_ge by lia. done.
  - case_decide as Hi; [|by rewrite drop_ge by lia].
    destruct (lookup_lt_is_Some_2 parts i Hi) as [k Hk].
    rewrite (drop_S _ _ _ Hk), Hk.
    case_decide as Hi'.
    + destruct (lookup_lt_is_Some_2 parts (i + 1) Hi') as [v Hv].
      rewrite Hv. replace (S i) with (i + 1) by lia.
      rewrite (drop_S _ _ _ Hv). cbn [pairs].
      rewrite assign_all_cons, IH by lia.
      by replace (S (i + 1)) with (i + 2) by lia.
    + rewrite IH by lia. rewrite !drop_ge by lia. done.
Qed.

(** The iteration bound of [parseIdentifier] is never the reason the loop
    stops: any larger bound gives the same object. *)
Lemma pair_loop_fuel_irrelevant fuel parts o :
  length parts <= fuel ->
  pair_loop fuel 0 parts o = pair_loop (length parts) 0 parts o.
Proof. intros H. rewrite !pair_loop_drop by lia. done. Qed.

Lemma parseIdentifier_assign_all identifier :
  parseIdentifier identifier =
    assign_all (pairs (segments identifier)) JsObject.empty.
Proof. unfold parseIdentifier. simpl. by rewrite pair_loop_drop by lia. Qed.

(** Pair number [i] is made of segments [2i] and [2i+1]. *)
Lemma pairs_lookup parts i k v :
  pairs parts !! i = Some (k, v) <->
  parts !! (2 * i) = Some k /\ parts !! (2 * i + 1) = Some v.
Proof.
  revert i. induction parts as [|x|k0 v0 rest IH] using list_pair_ind;
    intros i.
  - simpl. rewrite !lookup_nil. split; [done | intros [? _]; done].
  - change (pairs [x]) with (@nil (string * string)).
    rewrite lookup_nil. split; [done|].
    intros [_ H]. rewrite lookup_ge_None_2 in H; [done | simpl; lia].
  - destruct i as [|i].
    + simpl. split; [intros [= -> ->]; done | intros [[= ->] [= ->]]; done].
    + replace (2 * S i) with (S (S (2 * i))) by lia.
      change (pairs (k0 :: v0 :: rest)) with ((k0, v0) :: pairs rest).
      simpl. apply IH.
Qed.

(** A trailing unpaired segment contributes no pair. *)
Lemma length_pairs parts : length (pairs parts) = length parts `div` 2.
Proof.
  induction parts as [|x|k0 v0 rest IH] using list_pair_ind; [done..|].
  change (pairs (k0 :: v0 :: rest)) with ((k0, v0) :: pairs rest).
  cbn [length]. rewrite IH.
  replace (S (S (length rest))) with (1 * 2 + length rest) by lia.
  rewrite (Nat.div_add_l 1 2 (length rest)) by lia. lia.
Qed.

Lemma rejoin_pairs parts :
  Nat.even (length parts) = true -> rejoin (pairs parts) = join_segments parts.
Proof.
  induction parts as [|x|k0 v0 rest IH] using list_pair_ind; [done..|].
  intros Heven. simpl in Heven. simpl. by rewrite IH.
Qed.

End PairLoop.

(** ** Enumeration of an object without array-index keys *)

Lemma jsobject_entries_no_index (o : JsObject.t) :
  Forall (fun k => JsObject.array_index k = None) (JsObject.keys o) ->
  JsObject.entries o = o.
Proof.
  unfold JsObject.entries, JsObject.keys.
  induction o as [|[k v] o IH]; intros H; csimpl in H; [done|].
  apply Forall_cons in H as [Hk H]. specialize (IH H).
  cbn [JsObject.index_entries JsObject.string_entries]. rewrite Hk.
  destruct (JsObject.index_entries o) as [|e es] eqn:E.
  - csimpl in *. by rewrite IH.
  - exfalso. clear -E H. induction o as [|[k v] o IH]; [done|].
    csimpl in H. apply Forall_cons in H as [Hk H].
    cbn [JsObject.index_entries] in E. rewrite Hk in E. by apply IH.
Qed.

(** ** Splitting a path written from its segments *)

Section SplitJoin.

Lemma split_not_nil sep s : JsString.split sep s <> [].
Proof.
  destruct s as [|c s]; simpl; [done|].
  destruct (Ascii.eqb c sep); [done|].
  by destruct (JsString.split sep s).
Qed.

Lemma string_app_cons c (s t : string) : String c s +:+ t = String c (s +:+ t).
Proof. reflexivity. Qed.

Lemma string_app_nil_r (s : string) : s +:+ EmptyString = s.
Proof.
  induction s as [|c s IH]; [done|]. by rewrite string_app_cons, IH.
Qed.

(** A piece free of separators stays glued to the first piece of what
    follows it. *)
Lemma split_app_no_sep sep s t piece pieces :
  JsString.mem sep s = false ->
  JsString.split sep t = piece :: pieces ->
  JsString.split sep (s +:+ t) = (s +:+ piece) :: pieces.
Proof.
  intros Hs Ht. induction s as [|c s IH]; [done|].
  simpl in Hs. apply orb_false_iff in Hs as [Hc Hs].
  rewrite !string_app_cons. simpl. rewrite Hc, (IH Hs). done.
Qed.

Lemma split_join_segments segs :
  Forall (fun seg => JsString.truthy seg /\ JsString.mem "/" seg = false) segs ->
  exists pieces,
    JsString.split "/" (join_segments segs) = EmptyString :: pieces /\
    filter JsString.truthy pieces = segs.
Proof.
  induction segs as [|seg segs IH]; intros H.
  - exists []. done.
  - apply Forall_cons in H as [[Hne Hmem] H].
    destruct (IH H) as (pieces & Hsplit & Hfilter).
    exists (seg :: pieces). split.
    + simpl. f_equal. rewrite (split_app_no_sep _ _ _ _ _ Hmem Hsplit).
      by rewrite string_app_nil_r.
    + rewrite filter_cons_True by done. by rewrite Hfilter.
Qed.

(** Nonempty separator-free segments are recovered from the path that
    writes them out. *)
Lemma segments_join_segments segs :
  Forall (fun seg => JsString.truthy seg /\ JsString.mem "/" seg = false) segs ->
  segments (join_segments segs) = segs.
Proof.
  intros H. destruct (split_join_segments segs H) as (pieces & Hsplit & Hfilter).
  unfold segments. rewrite Hsplit, filter_cons_False; [done|].
  unfold JsString.truthy. tauto.
Qed.

(** Every path [/s1/s2/.../sn] of such segments is well formed. *)
Lemma well_formed_join_segments segs :
  Forall (fun seg => JsString.truthy seg /\ JsString.mem "/" seg = false) segs ->
  well_formed_path (join_segments segs).
Proof.
  intros H. unfold well_formed_path. by rewrite segments_join_segments.
Qed.

End SplitJoin.

(** ** What [parseIdentifier] returns *)

Section ParseIdentifier.
Implicit Types (identifier k v : string).

(** Under every key other than [__proto__] the returned object holds the
    value paired with the key's last occurrence, and nothing under a key
    that heads no pair. *)
Lemma parseIdentifier_get identifier k :
  k <> "__proto__" ->
  JsObject.get k (parseIdentifier identifier) = spec_mapping identifier k.
Proof.
  intros Hk. rewrite parseIdentifier_assign_all, jsobject_get_assign_all by done.
  unfold spec_mapping. by destruct (last_assigned k _).
Qed.

(** Whatever value the returned object holds under a key is the value
    paired with the key's last occurrence. *)
Lemma parseIdentifier_get_Some identifier k v :
  JsObject.get k (parseIdentifier identifier) = Some v ->
  spec_mapping identifier k = Some v.
Proof.
  rewrite parseIdentifier_assign_all. apply jsobject_get_assign_all_Some.
Qed.

Lemma parseIdentifier_keys_NoDup identifier :
  NoDup (JsObject.keys (parseIdentifier identifier)).
Proof.
  rewrite parseIdentifier_assign_all.
  apply assign_all_keys_NoDup, NoDup_nil_2.
Qed.

(** The value of a pair whose key occurs again later has no influence on
    the result. *)
Lemma parseIdentifier_earlier_value_lost identifier identifier' ps1 k v1 v1' ps2 :
  pairs (segments identifier) = ps1 ++ (k, v1) :: ps2 ->
  pairs (segments identifier') = ps1 ++ (k, v1') :: ps2 ->
  k ∈ ps2.*1 ->
  parseIdentifier identifier = parseIdentifier identifier'.
Proof.
  intros H H' Hin. rewrite !parseIdentifier_assign_all, H, H'.
  by apply assign_all_forgets.
Qed.

(** In terms of segments: a key other than [__proto__] maps to [v] exactly
    when some pair of segments [2i], [2i+1] is [k], [v] and no later pair has
    key [k]. *)
Lemma parseIdentifier_get_segments identifier k v :
  k <> "__proto__" ->
  JsObject.get k (parseIdentifier identifier) = Some v <->
  exists i,
    segments identifier !! (2 * i) = Some k /\
    segments identifier !! (2 * i + 1) = Some v /\
    forall j v', i < j ->
      ~ (segments identifier !! (2 * j) = Some k /\
         segments identifier !! (2 * j + 1) = Some v').
Proof.
  intros Hk. rewrite parseIdentifier_get by done. unfold spec_mapping.
  rewrite last_assigned_Some. split.
  - intros (i & Hi & Hlast). exists i. apply pairs_lookup in Hi as [? ?].
    split_and!; [done..|]. intros j v' Hj Hpair. apply pairs_lookup in Hpair.
    by apply (Hlast j v').
  - intros (i & H1 & H2 & Hlast). exists i. split; [by apply pairs_lookup|].
    intros j v' Hj Hpair. apply pairs_lookup in Hpair. by apply (Hlast j v').
Qed.

(** The object never has more entries than the identifier has pairs, and has
    fewer as soon as a key repeats. *)
Lemma parseIdentifier_size_le identifier :
  length (parseIdentifier identifier) <= length (pairs (segments identifier)).
Proof.
  rewrite <- (length_fmap fst (parseIdentifier identifier)).
  rewrite <- (length_fmap fst (pairs (segments identifier))).
  apply submseteq_length, NoDup_submseteq; [apply parseIdentifier_keys_NoDup|].
  intros k Hin. rewrite parseIdentifier_assign_all in Hin.
  apply assign_all_keys_elem_of in Hin as [Hin|Hin]; [|done].
  by apply elem_of_nil in Hin.
Qed.

Lemma parseIdentifier_size_lt identifier :
  ~ NoDup (pairs (segments identifier)).*1 ->
  length (parseIdentifier identifier) < length (pairs (segments identifier)).
Proof.
  intros Hdup.
  destruct (decide (length (pairs (segments identifier)) <=
                    length (parseIdentifier identifier))) as [Hle|]; [|lia].
  exfalso. apply Hdup.
  assert ((parseIdentifier identifier).*1 ⊆+ (pairs (segments identifier)).*1) as Hsub.
  { apply NoDup_submseteq; [apply parseIdentifier_keys_NoDup|].
    intros k Hin. rewrite parseIdentifier_assign_all in Hin.
    apply assign_all_keys_elem_of in Hin as [Hin|Hin]; [|done].
    by apply elem_of_nil in Hin. }
  apply submseteq_length_Permutation in Hsub; [|by rewrite !length_fmap].
  rewrite <- Hsub. apply parseIdentifier_keys_NoDup.
Qed.

Example parseIdentifier_docstring_input :
  parseIdentifier "/us/usc/t42/s1983" = [("us", "usc"); ("t42", "s1983")].
Proof. reflexivity. Qed.

Example parseIdentifier_repeated_key :
  parseIdentifier "/a/1/a/2" = [("a", "2")] /\
  parseIdentifier "/a/1/a/2" = parseIdentifier "/a/2".
Proof. split; reflexivity. Qed.

Example parseIdentifier_trailing_segment :
  parseIdentifier "/us/bill/118/hr/1" = [("us", "bill"); ("118", "hr")].
Proof. reflexivity. Qed.

Example parseIdentifier_malformed :
  parseIdentifier EmptyString = JsObject.empty /\
  parseIdentifier "///" = JsObject.empty /\
  parseIdentifier "lonely" = JsObject.empty.
Proof. repeat split; reflexivity. Qed.

(** Array-index keys are enumerated first, in numeric order, whatever the
    order in which they were assigned; a numeral with a leading zero or
    beyond [2^32 - 2] is an ordinary key. *)
Example entries_index_keys_first :
  JsObject.entries (parseIdentifier "/b/1/10/x/9/y/a/2/007/z/4294967295/n") =
    [("9", "y"); ("10", "x"); ("b", "1"); ("a", "2"); ("007", "z"); ("4294967295", "n")].
Proof. reflexivity. Qed.

End ParseIdentifier.

(* ================================================================== *)
(** * The parser *)
(* ================================================================== *)

(** [parse] and [validate] answer the same for every input. *)
Lemma parse_constant (xml xml' : string) : USLMParser.parse xml = USLMParser.parse xml'.
Proof. reflexivity. Qed.

Lemma validate_constant (xml : string) :
  USLMParser.validate xml = {| ValidationResult.valid := true; ValidationResult.errors := [] |}.
Proof. reflexivity. Qed.

(** The flag and the error list of [validate] always agree. *)
Lemma validate_valid_iff_no_errors (xml : string) :
  ValidationResult.valid (USLMParser.validate xml) = true <->
  ValidationResult.errors (USLMParser.validate xml) = [].
Proof. done. Qed.

(** C1. On the minimal bill of Scenario E, [parse] does not return the
    document the scenario expects: the returned [docType] is ["unknown"], not
    ["bill"], and the returned [references] list is empty, so it has no first
    element with target ["/us/usc/t42/s1983"]. *)
Theorem parse_scenario_E :
  USLMDocument.docType (USLMParser.parse scenario_E_xml) = "unknown" /\
  USLMDocument.docType (USLMParser.parse scenario_E_xml) <> "bill" /\
  USLMDocument.references (USLMParser.parse scenario_E_xml) = [] /\
  length (USLMDocument.references (USLMParser.parse scenario_E_xml)) <> 1 /\
  USLMDocument.references (USLMParser.parse scenario_E_xml) !! 0 = None.
Proof. by repeat split. Qed.

(** C3. On the unterminated tag ["<bill"], which no XML parser accepts, and
    on the well-formed ["<note></note>"], whose root is none of the three
    recognised tags, [validate] reports no error and answers [valid]. *)
Theorem validate_reports_nothing :
  USLMParser.validate "<bill" =
    {| ValidationResult.valid := true; ValidationResult.errors := [] |} /\
  USLMParser.validate "<note></note>" =
    {| ValidationResult.valid := true; ValidationResult.errors := [] |} /\
  length (ValidationResult.errors (USLMParser.validate "<bill")) <> 1.
Proof. by repeat split. Qed.

(** C4. For the identifier ["/__proto__/x"] the nonempty segments are
    [__proto__] and [x], so the mapping that pairs consecutive segments sends
    [__proto__] to [x]; [parseIdentifier] returns the empty object, which
    has no such entry. *)
Theorem parseIdentifier_drops_proto_pair :
  segments "/__proto__/x" = ["__proto__"; "x"] /\
  pairs (segments "/__proto__/x") = [("__proto__", "x")] /\
  spec_mapping "/__proto__/x" "__proto__" = Some "x" /\
  parseIdentifier "/__proto__/x" = JsObject.empty /\
  JsObject.get "__proto__" (parseIdentifier "/__proto__/x") = None.
Proof. by repeat split. Qed.

(** C9. In ["/__proto__/1/__proto__/2"] the key segment [__proto__] occurs
    twice and its last occurrence is paired with [2]; [parseIdentifier]
    returns the empty object, which keeps neither value. *)
Theorem parseIdentifier_repeated_proto_key :
  pairs (segments "/__proto__/1/__proto__/2") =
    [("__proto__", "1"); ("__proto__", "2")] /\
  spec_mapping "/__proto__/1/__proto__/2" "__proto__" = Some "2" /\
  parseIdentifier "/__proto__/1/__proto__/2" = JsObject.empty /\
  JsObject.get "__proto__" (parseIdentifier "/__proto__/1/__proto__/2") = None.
Proof. by repeat split. Qed.

(** The round trip of C5 as the specification words it fails on a
    well-formed path of four segments whose two pairs share their key. *)
Lemma roundtrip_fails_on_repeated_key :
  well_formed_path "/a/1/a/2" /\
  even_segment_count "/a/1/a/2" /\
  rejoin (JsObject.entries (parseIdentifier "/a/1/a/2")) = "/a/2" /\
  rejoin (JsObject.entries (parseIdentifier "/a/1/a/2")) <> "/a/1/a/2".
Proof. by repeat split. Qed.

(** It also fails when a key is an array index, which enumeration moves to
    the front: the public-law path ["/us/pl/117/58"] comes back as
    ["/117/58/us/pl"]. *)
Example roundtrip_fails_on_index_key :
  well_formed_path "/us/pl/117/58" /\
  even_segment_count "/us/pl/117/58" /\
  NoDup (pairs (segments "/us/pl/117/58")).*1 /\
  parseIdentifier "/us/pl/117/58" = [("us", "pl"); ("117", "58")] /\
  JsObject.entries (parseIdentifier "/us/pl/117/58") = [("117", "58"); ("us", "pl")] /\
  rejoin (JsObject.entries (parseIdentifier "/us/pl/117/58")) = "/117/58/us/pl".
Proof.
  split_and!; try reflexivity. apply (bool_decide_unpack _). by vm_compute.
Qed.

(** C5, amended. For every well-formed path with an even number of
    nonempty segments whose key segments (those at even positions) are
    pairwise distinct, and none of which is [__proto__] or an array index,
    re-joining the entries of [parseIdentifier] in enumeration order, each
    key and each value preceded by ['/'], gives back the identifier. *)
Theorem parseIdentifier_roundtrip (identifier : string) :
  well_formed_path identifier ->
  even_segment_count identifier ->
  NoDup (pairs (segments identifier)).*1 ->
  Forall (fun k => k <> "__proto__" /\ JsObject.array_index k = None)
         (pairs (segments identifier)).*1 ->
  rejoin (JsObject.entries (parseIdentifier identifier)) = identifier.
Proof.
  intros Hwf Heven Hnd Hkeys.
  assert (parseIdentifier identifier = pairs (segments identifier)) as ->.
  { rewrite parseIdentifier_assign_all, assign_all_fresh; [done..|].
    eapply Forall_impl; [exact Hkeys|]. intros k [Hp _].
    split; [done | apply not_elem_of_nil]. }
  rewrite jsobject_entries_no_index.
  - rewrite rejoin_pairs by done. exact Hwf.
  - eapply Forall_impl; [exact Hkeys|]. by intros k [_ ?].
Qed.

Lemma parseIdentifier_roundtrip_witness :
  rejoin (JsObject.entries (parseIdentifier "/us/usc/t42/s1983")) = "/us/usc/t42/s1983".
Proof.
  apply (parseIdentifier_roundtrip "/us/usc/t42/s1983").
  - reflexivity.
  - reflexivity.
  - apply (bool_decide_unpack _). vm_compute. exact I.
  - apply (bool_decide_unpack _). vm_compute. exact I.
Defined.

(* ================================================================== *)
(** * The Shadow Code Graph *)
(* ================================================================== *)

(** ** [Map] facts *)

Section JsMapFacts.
Context {V : Type}.
Implicit Types (m : JsMap.t V) (k : string) (v : V).

Lemma jsmap_get_set_eq m k v : JsMap.get k (JsMap.set k v m) = Some v.
Proof.
  induction m as [|[k' v'] m IH]; simpl.
  - by rewrite eqb_string_true.
  - destruct (String.eqb_spec k' k) as [->|Hne]; simpl.
    + by rewrite eqb_string_true.
    + by rewrite eqb_string_false.
Qed.

Lemma jsmap_get_set_ne m k k' v :
  k <> k' -> JsMap.get k' (JsMap.set k v m) = JsMap.get k' m.
Proof.
  intros Hne. induction m as [|[k0 v0] m IH]; simpl.
  - by rewrite eqb_string_false.
  - destruct (String.eqb_spec k0 k) as [->|Hne0]; simpl.
    + by rewrite eqb_string_false.
    + destruct (String.eqb k0 k'); [done | apply IH].
Qed.

Lemma jsmap_get_None m k : JsMap.get k m = None <-> k ∉ JsMap.keys m.
Proof.
  unfold JsMap.keys. induction m as [|[k' v'] m IH]; csimpl.
  - split; [intros _; apply not_elem_of_nil | done].
  - rewrite not_elem_of_cons. destruct (String.eqb_spec k' k) as [->|Hne].
    + split; [done | intros [? _]; done].
    + rewrite IH. split; [intros ?; split; [congruence | done] | intros [_ ?]; done].
Qed.

Lemma jsmap_get_is_Some m k : is_Some (JsMap.get k m) <-> k ∈ JsMap.keys m.
Proof.
  rewrite <- not_eq_None_Some, jsmap_get_None.
  split; [apply dec_stable | tauto].
Qed.

(** [set] on a present key keeps the key sequence; on an absent key it
    appends the key. *)
Lemma jsmap_keys_set m k v :
  JsMap.keys (JsMap.set k v m) =
    if decide (k ∈ JsMap.keys m) then JsMap.keys m else JsMap.keys m ++ [k].
Proof.
  unfold JsMap.keys. induction m as [|[k' v'] m IH].
  - case_decide as Hin; [by apply elem_of_nil in Hin | done].
  - cbn [JsMap.set]. destruct (String.eqb_spec k' k) as [->|Hne].
    + rewrite decide_True; [done | by left].
    + rewrite !fmap_cons, IH. cbn [fst]. case_decide as Hin.
      * rewrite decide_True; [done | by right].
      * rewrite decide_False; [done|].
        rewrite not_elem_of_cons. split; [congruence | done].
Qed.

Lemma jsmap_size_keys m : JsMap.size m = length (JsMap.keys m).
Proof. unfold JsMap.size, JsMap.keys. by rewrite length_fmap. Qed.

Lemma jsmap_size_set_present m k v :
  is_Some (JsMap.get k m) -> JsMap.size (JsMap.set k v m) = JsMap.size m.
Proof.
  intros H. apply jsmap_get_is_Some in H.
  by rewrite !jsmap_size_keys, jsmap_keys_set, decide_True.
Qed.

Lemma jsmap_size_set_absent m k v :
  JsMap.get k m = None -> JsMap.size (JsMap.set k v m) = S (JsMap.size m).
Proof.
  intros H. apply jsmap_get_None in H.
  rewrite !jsmap_size_keys, jsmap_keys_set, decide_False by done.
  rewrite length_app. simpl. lia.
Qed.

Lemma jsmap_keys_set_NoDup m k v :
  NoDup (JsMap.keys m) -> NoDup (JsMap.keys (JsMap.set k v m)).
Proof.
  intros H. rewrite jsmap_keys_set. case_decide as Hk; [done|].
  apply NoDup_app. split_and!; [done | | apply NoDup_singleton].
  intros x Hx Hx'. apply list_elem_of_singleton in Hx'. by subst.
Qed.

Lemma jsmap_set_entries m k v :
  forall kv, kv ∈ JsMap.set k v m -> kv = (k, v) \/ kv ∈ m.
Proof.
  induction m as [|[k' v'] m IH]; simpl; intros kv Hin.
  - apply list_elem_of_singleton in Hin. by left.
  - destruct (String.eqb_spec k' k) as [->|Hne].
    + apply elem_of_cons in Hin as [->|Hin]; [by left|].
      right. by apply elem_of_cons; right.
    + apply elem_of_cons in Hin as [->|Hin].
      * right. by apply elem_of_cons; left.
      * destruct (IH _ Hin) as [?|?]; [by left|].
        right. by apply elem_of_cons; right.
Qed.

End JsMapFacts.

(** ** The store after a sequence of calls *)

Section GraphFacts.
Import ShadowCodeGraph.
Implicit Types (g : ShadowCodeGraph.t) (o : op) (os : list op).

Lemma run_cons o os g : run (o :: os) g = run os (step o g).1.
Proof. reflexivity. Qed.

Lemma run_app os os' g : run (os ++ os') g = run os' (run os g).
Proof. unfold run. apply foldl_app. Qed.

(** Only [addNode] and [addEdge] change the store. *)
Lemma step_query o g :
  match o with
  | AddNode _ | AddEdge _ => True
  | _ => (step o g).1 = g
  end.
Proof. by destruct o. Qed.

Lemma step_edges o g :
  edges (step o g).1 = edges g ++ added_edges [o].
Proof. destruct o; simpl; by rewrite ?app_nil_r. Qed.

Lemma added_edges_cons o os : added_edges (o :: os) = added_edges [o] ++ added_edges os.
Proof. by destruct o. Qed.

Lemma run_edges os g : edges (run os g) = edges g ++ added_edges os.
Proof.
  revert g. induction os as [|o os IH]; intros g.
  - simpl. by rewrite app_nil_r.
  - rewrite run_cons, IH, step_edges, (added_edges_cons o os).
    by rewrite app_assoc.
Qed.

Lemma added_edges_AddEdge (es : list USLMEdge.t) : added_edges (AddEdge <$> es) = es.
Proof. induction es as [|e es IH]; csimpl; [done | by rewrite IH]. Qed.

Lemma step_nodes_ok o g : nodes_ok g -> nodes_ok (step o g).1.
Proof.
  intros [Hnd Hkeyed]. destruct o; try done. split; simpl.
  - by apply jsmap_keys_set_NoDup.
  - apply Forall_forall. intros kv Hin.
    apply jsmap_set_entries in Hin as [->|Hin]; [done|].
    by eapply Forall_forall in Hkeyed.
Qed.

Lemma run_nodes_ok os g : nodes_ok g -> nodes_ok (run os g).
Proof.
  revert g. induction os as [|o os IH]; intros g H; [done|].
  rewrite run_cons. by apply IH, step_nodes_ok.
Qed.

Lemma reachable_nodes_ok g : reachable g -> nodes_ok g.
Proof.
  intros [os ->]. apply run_nodes_ok. split; [apply NoDup_nil_2 | apply Forall_nil_2].
Qed.

(** In such a map the nodes carrying a given identifier are the one node
    filed under it, if any. *)
Lemma values_with_identifier (m : JsMap.t USLMNode.t) identifier :
  NoDup (JsMap.keys m) -> keyed_by_identifier m ->
  filter (fun n => USLMNode.identifier n = identifier) (JsMap.values m) =
    match JsMap.get identifier m with Some n => [n] | None => [] end.
Proof.
  unfold JsMap.keys, JsMap.values, keyed_by_identifier.
  induction m as [|[k n] m IH]; intros Hnd Hkeyed; [done|].
  rewrite fmap_cons in Hnd. apply NoDup_cons in Hnd as [Hk Hnd].
  apply Forall_cons in Hkeyed as [Hkn Hkeyed]. simpl in Hkn. subst k.
  specialize (IH Hnd Hkeyed). rewrite fmap_cons. cbn [snd JsMap.get].
  destruct (String.eqb_spec (USLMNode.identifier n) identifier) as [Heq|Hne].
  - rewrite filter_cons_True by done. rewrite IH.
    assert (JsMap.get identifier m = None) as ->; [|done].
    apply jsmap_get_None. unfold JsMap.keys. by rewrite <- Heq.
  - by rewrite filter_cons_False.
Qed.

Lemma count_occ_filter (P : USLMEdge.t -> Prop) `{!forall e, Decision (P e)}
    (l : list USLMEdge.t) (e : USLMEdge.t) :
  P e -> count_occ USLMEdge.eq_dec (filter P l) e = count_occ USLMEdge.eq_dec l e.
Proof.
  intros He. induction l as [|x l IH]; [done|].
  destruct (decide (P x)) as [Hx|Hx].
  - rewrite filter_cons_True by done. simpl. by rewrite IH.
  - rewrite filter_cons_False by done. simpl.
    destruct (USLMEdge.eq_dec x e) as [->|_]; [done | exact IH].
Qed.

(** A call never drops or moves an edge, never forgets a node, and never
    lowers the node count. *)
Lemma step_edges_prefix o g : edges g `prefix_of` edges (step o g).1.
Proof. rewrite step_edges. by apply prefix_app_r. Qed.

Lemma step_getNode_is_Some o g identifier :
  is_Some (getNode identifier g) -> is_Some (getNode identifier (step o g).1).
Proof.
  intros H. destruct o; try done. simpl. unfold getNode in *. simpl.
  destruct (decide (USLMNode.identifier node = identifier)) as [<-|Hne].
  - rewrite jsmap_get_set_eq. by eexists.
  - by rewrite jsmap_get_set_ne.
Qed.

Lemma step_nodeCount_le o g : nodeCount g <= nodeCount (step o g).1.
Proof.
  destruct o; try done. unfold nodeCount. simpl.
  destruct (JsMap.get (USLMNode.identifier node) (nodes g)) eqn:E.
  - rewrite jsmap_size_set_present; [done | by rewrite E].
  - rewrite jsmap_size_set_absent by done. lia.
Qed.

(** The same along any sequence of calls. *)
Lemma run_grows_monotonically os g :
  edges g `prefix_of` edges (run os g) /\
  (forall identifier, is_Some (getNode identifier g) ->
     is_Some (getNode identifier (run os g))) /\
  nodeCount g <= nodeCount (run os g).
Proof.
  revert g. induction os as [|o os IH]; intros g; [done|].
  rewrite run_cons. destruct (IH (step o g).1) as (IHe & IHn & IHc).
  split_and!.
  - etrans; [apply step_edges_prefix | done].
  - intros identifier H. by apply IHn, step_getNode_is_Some.
  - etrans; [apply step_nodeCount_le | done].
Qed.

End GraphFacts.

(** ** Claims about the store *)

Section GraphClaims.
Import ShadowCodeGraph.
Implicit Types (g : ShadowCodeGraph.t) (o : op) (os : list op).

(** [detectLoopholes] answers with the empty list on every store. *)
Lemma detectLoopholes_empty g : detectLoopholes g = [].
Proof. reflexivity. Qed.

(** C2. On the store of Scenario C, whose only edge points to
    ["/us/usc/t99/s404"] and which has no node, that edge is dangling, yet
    [detectLoopholes] returns no finding at all where the claim requires
    one [dangling_reference] finding. *)
Theorem detectLoopholes_scenario_C :
  getAllEdges scenario_C_graph = [scenario_C_edge] /\
  getNode (USLMEdge.to scenario_C_edge) scenario_C_graph = None /\
  dangling_edges scenario_C_graph = [scenario_C_edge] /\
  detectLoopholes scenario_C_graph = [] /\
  length (detectLoopholes scenario_C_graph) <>
    length (dangling_edges scenario_C_graph).
Proof. by repeat split. Qed.

(** C6. In a store reached by any sequence of calls, [addNode] with a
    node whose identifier is already a key overwrites: [getNode] of that
    identifier then returns exactly the node just added, the number of nodes
    is unchanged, the node just added is the only node carrying that
    identifier, no key occurs twice, every other identifier keeps its node,
    and the edges are untouched. [addNode] is a total function: there is
    no failing case. *)
Theorem addNode_last_write_wins g (node old : USLMNode.t) :
  reachable g ->
  getNode (USLMNode.identifier node) g = Some old ->
  getNode (USLMNode.identifier node) (addNode node g) = Some node /\
  nodeCount (addNode node g) = nodeCount g /\
  filter (fun n => USLMNode.identifier n = USLMNode.identifier node)
         (getAllNodes (addNode node g)) = [node] /\
  NoDup (JsMap.keys (nodes (addNode node g))) /\
  (forall identifier, identifier <> USLMNode.identifier node ->
     getNode identifier (addNode node g) = getNode identifier g) /\
  getAllEdges (addNode node g) = getAllEdges g.
Proof.
  intros Hreach Hold.
  assert (nodes_ok (addNode node g)) as [Hnd Hkeyed].
  { apply (step_nodes_ok (AddNode node)), reachable_nodes_ok, Hreach. }
  assert (getNode (USLMNode.identifier node) (addNode node g) = Some node) as Hget.
  { apply jsmap_get_set_eq. }
  split_and!; [done| | |done| |done].
  - apply jsmap_size_set_present. unfold getNode in Hold. by rewrite Hold.
  - unfold getAllNodes. rewrite values_with_identifier by done.
    unfold getNode in Hget. by rewrite Hget.
  - intros identifier Hne. apply jsmap_get_set_ne. congruence.
Qed.

Lemma addNode_last_write_wins_witness :
  getNode "/us/usc/t42/s1983" (addNode section_1983_new (addNode section_1983_old create))
    = Some section_1983_new /\
  nodeCount (addNode section_1983_new (addNode section_1983_old create)) = 1.
Proof.
  destruct (addNode_last_write_wins (addNode section_1983_old create)
              section_1983_new section_1983_old) as (H1 & H2 & _).
  - exists [AddNode section_1983_old]. reflexivity.
  - reflexivity.
  - split; [exact H1 | exact H2].
Defined.

(** C7. After any sequence of calls on a fresh store, [getAllEdges]
    returns exactly the edges passed to [addEdge], one per call and in call
    order; in particular a sequence of [addEdge] calls gives back the
    sequence of its arguments, repeated edges included. *)
Theorem getAllEdges_call_order :
  (forall os g, getAllEdges (run os g) = getAllEdges g ++ added_edges os) /\
  (forall es : list USLMEdge.t, getAllEdges (run (AddEdge <$> es) create) = es) /\
  (forall (e : USLMEdge.t) n,
     getAllEdges (run (AddEdge <$> replicate n e) create) = replicate n e).
Proof.
  assert (forall es : list USLMEdge.t,
            getAllEdges (run (AddEdge <$> es) create) = es) as H.
  { intros es. unfold getAllEdges. by rewrite run_edges, added_edges_AddEdge. }
  split_and!; [|done|].
  - intros os g. apply run_edges.
  - intros e n. apply H.
Qed.

(** C8. No call removes anything: after any single call on any store,
    the old edge list is a prefix of the new one, so every edge is still at
    its position; every identifier that had a node still has one; neither
    count shrinks; and every call other than [addNode] and [addEdge] leaves
    the store as it was. *)
Theorem store_grows_monotonically o g :
  edges g `prefix_of` edges (step o g).1 /\
  (forall i e, edges g !! i = Some e -> edges (step o g).1 !! i = Some e) /\
  (forall identifier, is_Some (getNode identifier g) ->
     is_Some (getNode identifier (step o g).1)) /\
  length (edges g) <= length (edges (step o g).1) /\
  nodeCount g <= nodeCount (step o g).1 /\
  match o with
  | AddNode _ | AddEdge _ => True
  | _ => (step o g).1 = g
  end.
Proof.
  pose proof (step_edges_prefix o g) as Hprefix.
  split_and!; [done| | | | |apply step_query].
  - intros i e He. by eapply prefix_lookup_Some.
  - intros identifier. apply step_getNode_is_Some.
  - by apply prefix_length.
  - apply step_nodeCount_le.
Qed.

Lemma store_grows_monotonically_witness :
  edges (step (AddNode section_1983_new)
           (addEdge edge_to_1983 (addNode section_1983_old create))).1 !! 0
    = Some edge_to_1983 /\
  is_Some (getNode "/us/usc/t42/s1983"
             (step (AddNode section_1983_new)
                (addEdge edge_to_1983 (addNode section_1983_old create))).1).
Proof.
  destruct (store_grows_monotonically (AddNode section_1983_new)
              (addEdge edge_to_1983 (addNode section_1983_old create)))
    as (_ & Hedge & Hnode & _).
  split.
  - apply Hedge. reflexivity.
  - apply Hnode. exists section_1983_old. reflexivity.
Defined.

(** C10. [getEdgesFrom] returns exactly the edges whose [from] is the
    given identifier: the same members, each as many times as in the store,
    in store order; likewise [getEdgesTo] with [to]. Both answer without
    changing the store. *)
Theorem getEdges_exact g (identifier : string) :
  ((forall e, e ∈ getEdgesFrom identifier g <->
              USLMEdge.from e = identifier /\ e ∈ edges g) /\
   getEdgesFrom identifier g `sublist_of` edges g /\
   (forall e, USLMEdge.from e = identifier ->
      count_occ USLMEdge.eq_dec (getEdgesFrom identifier g) e =
      count_occ USLMEdge.eq_dec (edges g) e) /\
   step (GetEdgesFrom identifier) g = (g, Edges (getEdgesFrom identifier g))) /\
  ((forall e, e ∈ getEdgesTo identifier g <->
              USLMEdge.to e = identifier /\ e ∈ edges g) /\
   getEdgesTo identifier g `sublist_of` edges g /\
   (forall e, USLMEdge.to e = identifier ->
      count_occ USLMEdge.eq_dec (getEdgesTo identifier g) e =
      count_occ USLMEdge.eq_dec (edges g) e) /\
   step (GetEdgesTo identifier) g = (g, Edges (getEdgesTo identifier g))).
Proof.
  split; split_and!; try reflexivity.
  - intros e. unfold getEdgesFrom. by rewrite list_elem_of_filter.
  - apply sublist_filter.
  - intros e He. by apply count_occ_filter.
  - intros e. unfold getEdgesTo. by rewrite list_elem_of_filter.
  - apply sublist_filter.
  - intros e He. by apply count_occ_filter.
Qed.

Lemma getEdges_exact_witness :
  count_occ USLMEdge.eq_dec
    (getEdgesTo "/us/usc/t42/s1983"
       (addEdge edge_to_1983 (addEdge scenario_C_edge (addEdge edge_to_1983 create))))
    edge_to_1983 = 2.
Proof.
  destruct (getEdges_exact
              (addEdge edge_to_1983 (addEdge scenario_C_edge (addEdge edge_to_1983 create)))
              "/us/usc/t42/s1983") as (_ & _ & _ & Hcount & _).
  rewrite (Hcount edge_to_1983); reflexivity.
Defined.

End GraphClaims.

(* ================================================================== *)
(** * Further properties of [parseIdentifier] *)
(* ================================================================== *)

Section SegmentFacts.
Implicit Types (identifier k v : string) (ps : list (string * string)).

Lemma split_pieces_no_sep sep s :
  Forall (fun piece => JsString.mem sep piece = false) (JsString.split sep s).
Proof.
  induction s as [|c s IH]; simpl.
  - by apply Forall_singleton.
  - destruct (Ascii.eqb c sep) eqn:Hc.
    + by apply Forall_cons.
    + destruct (JsString.split sep s) as [|piece pieces].
      * apply Forall_singleton. simpl. by rewrite Hc.
      * apply Forall_cons in IH as [Hpiece Hpieces].
        apply Forall_cons. split; [|done]. simpl. by rewrite Hc.
Qed.

Lemma segments_ok identifier : Forall segment_ok (segments identifier).
Proof.
  apply Forall_forall. intros seg Hin. unfold segments in Hin.
  apply list_elem_of_filter in Hin as [Htruthy Hin]. split; [done|].
  pose proof (split_pieces_no_sep "/" identifier) as H.
  by eapply Forall_forall in H.
Qed.

(** Splitting distributes over a separator. *)
Lemma split_app_sep sep s1 s2 :
  JsString.split sep (s1 +:+ String sep s2) =
    JsString.split sep s1 ++ JsString.split sep s2.
Proof.
  induction s1 as [|c s1 IH].
  - simpl. unfold String.append. simpl. by rewrite Ascii.eqb_refl.
  - rewrite string_app_cons. simpl. rewrite IH.
    destruct (Ascii.eqb c sep); [done|].
    pose proof (split_not_nil sep s1).
    by destruct (JsString.split sep s1).
Qed.

Lemma segments_app_sep s1 s2 :
  segments (s1 +:+ String "/" s2) = segments s1 ++ segments s2.
Proof. unfold segments. by rewrite split_app_sep, filter_app. Qed.

Lemma parseIdentifier_segments identifier identifier' :
  segments identifier = segments identifier' ->
  parseIdentifier identifier = parseIdentifier identifier'.
Proof. intros H. unfold parseIdentifier. by rewrite H. Qed.

Lemma jsobject_get_elem_of (o : JsObject.t) k v :
  JsObject.get k o = Some v -> (k, v) ∈ o.
Proof.
  induction o as [|[k' v'] o IH]; simpl; [done|].
  destruct (String.eqb_spec k' k) as [->|Hne].
  - intros [= ->]. by apply elem_of_cons; left.
  - intros H. apply elem_of_cons; right. by apply IH.
Qed.

Lemma jsobject_elem_of_get (o : JsObject.t) k v :
  NoDup (JsObject.keys o) -> (k, v) ∈ o -> JsObject.get k o = Some v.
Proof.
  unfold JsObject.keys. induction o as [|[k' v'] o IH]; intros Hnd Hin.
  - by apply elem_of_nil in Hin.
  - rewrite fmap_cons in Hnd. apply NoDup_cons in Hnd as [Hk Hnd]. simpl.
    apply elem_of_cons in Hin as [[= -> ->]|Hin].
    + by rewrite eqb_string_true.
    + destruct (String.eqb_spec k' k) as [->|Hne]; [|by apply IH].
      exfalso. apply Hk. apply list_elem_of_fmap. by exists (k, v).
Qed.



End SegmentFacts.

Section ParseIdentifierExtras.
Implicit Types (identifier k v : string) (ps : list (string * string)).

(** X1. Every entry of the object [parseIdentifier] returns is made of two
    nonempty strings without ['/'], its key is never [__proto__], and no key
    occurs twice. *)
Theorem parseIdentifier_entries_well_formed identifier :
  Forall (fun kv => segment_ok kv.1 /\ segment_ok kv.2 /\ kv.1 <> "__proto__")
         (parseIdentifier identifier) /\
  NoDup (JsObject.keys (parseIdentifier identifier)).
Proof.
  split; [|apply parseIdentifier_keys_NoDup].
  apply Forall_forall. intros [k v] Hin. simpl.
  apply jsobject_elem_of_get in Hin; [|apply parseIdentifier_keys_NoDup].
  assert (k <> "__proto__") as Hk.
  { intros ->. rewrite parseIdentifier_assign_all in Hin.
    by rewrite jsobject_get_assign_all_proto in Hin. }
  apply parseIdentifier_get_Some, last_assigned_Some in Hin as (i & Hi & _).
  apply pairs_lookup in Hi as [Hkey Hval].
  pose proof (segments_ok identifier) as Hok. rewrite Forall_forall in Hok.
  split_and!; [| |done]; apply Hok; by eapply list_elem_of_lookup_2.
Qed.

(** X2. Separators only delimit: the segments of [s1/s2] are those of [s1]
    followed by those of [s2], so a leading, a trailing or a doubled ['/']
    does not change what [parseIdentifier] returns. *)
Theorem parseIdentifier_separator_insensitive :
  (forall s1 s2, segments (s1 +:+ String "/" s2) = segments s1 ++ segments s2) /\
  (forall identifier,
     parseIdentifier (String "/" identifier) = parseIdentifier identifier) /\
  (forall identifier,
     parseIdentifier (identifier +:+ "/") = parseIdentifier identifier) /\
  (forall s1 s2,
     parseIdentifier (s1 +:+ String "/" (String "/" s2)) =
     parseIdentifier (s1 +:+ String "/" s2)).
Proof.
  split_and!.
  - apply segments_app_sep.
  - intros identifier. apply parseIdentifier_segments.
    apply (segments_app_sep EmptyString identifier).
  - intros identifier. apply parseIdentifier_segments.
    rewrite segments_app_sep. apply app_nil_r.
  - intros s1 s2. apply parseIdentifier_segments.
    rewrite (segments_app_sep s1 (String "/" s2)), (segments_app_sep s1 s2).
    reflexivity.
Qed.

(** X3. Every identifier has a well-formed normal form, its segments each
    preceded by one ['/'], which has the same segments and on which
    [parseIdentifier] returns the same object. *)
Theorem parseIdentifier_normal_form identifier :
  well_formed_path (join_segments (segments identifier)) /\
  segments (join_segments (segments identifier)) = segments identifier /\
  parseIdentifier (join_segments (segments identifier)) = parseIdentifier identifier.
Proof.
  assert (segments (join_segments (segments identifier)) = segments identifier) as H.
  { apply segments_join_segments, segments_ok. }
  split_and!; [|done|by apply parseIdentifier_segments].
  unfold well_formed_path. by rewrite H.
Qed.

(** X4. For a key [k] other than [__proto__], the returned object holds [v]
    under [k] exactly when some segments [2i] and [2i+1] are [k] and [v] and
    no later complete pair has key [k]; it holds nothing under [k] exactly
    when no complete pair has key [k]. *)
Theorem parseIdentifier_lookup_by_segments identifier k v :
  k <> "__proto__" ->
  (JsObject.get k (parseIdentifier identifier) = Some v <->
   exists i,
     segments identifier !! (2 * i) = Some k /\
     segments identifier !! (2 * i + 1) = Some v /\
     forall j v', i < j ->
       ~ (segments identifier !! (2 * j) = Some k /\
          segments identifier !! (2 * j + 1) = Some v')) /\
  (JsObject.get k (parseIdentifier identifier) = None <->
   forall i v',
     ~ (segments identifier !! (2 * i) = Some k /\
        segments identifier !! (2 * i + 1) = Some v')).
Proof.
  intros Hk. split; [by apply parseIdentifier_get_segments|].
  rewrite parseIdentifier_get by done. unfold spec_mapping.
  rewrite last_assigned_None. split.
  - intros Hnotin i v' Hpair. apply pairs_lookup in Hpair. apply Hnotin.
    apply list_elem_of_fmap. exists (k, v'). split; [done|].
    by eapply list_elem_of_lookup_2.
  - intros Hnone Hin. apply list_elem_of_fmap in Hin as ([k' v'] & Hk' & Hin).
    simpl in Hk'. subst k'. apply list_elem_of_lookup_1 in Hin as [i Hi].
    apply pairs_lookup in Hi. by apply (Hnone i v').
Qed.

Lemma parseIdentifier_lookup_by_segments_witness :
  JsObject.get "t42" (parseIdentifier "/us/usc/t42/s1983") = Some "s1983".
Proof.
  apply (parseIdentifier_lookup_by_segments "/us/usc/t42/s1983" "t42" "s1983");
    [discriminate|].
  exists 1. split_and!; [reflexivity..|].
  intros j v' Hj [Hkey _]. rewrite lookup_ge_None_2 in Hkey; [done|].
  simpl. lia.
Defined.

(** X5. The returned object has at most one entry per two segments, exactly
    that many when the keys are pairwise distinct and none is [__proto__],
    and none at all for an identifier of fewer than two segments. *)
Theorem parseIdentifier_size_bound identifier :
  length (parseIdentifier identifier) <= length (segments identifier) `div` 2 /\
  (NoDup (pairs (segments identifier)).*1 ->
   Forall (fun k => k <> "__proto__") (pairs (segments identifier)).*1 ->
   length (parseIdentifier identifier) = length (segments identifier) `div` 2) /\
  (length (segments identifier) < 2 -> parseIdentifier identifier = JsObject.empty).
Proof.
  split_and!.
  - rewrite <- length_pairs. apply parseIdentifier_size_le.
  - intros Hnd Hkeys. rewrite <- length_pairs.
    rewrite parseIdentifier_assign_all, assign_all_fresh; [done..|].
    eapply Forall_impl; [exact Hkeys|]. intros k Hk.
    split; [done | apply not_elem_of_nil].
  - intros Hlen. rewrite parseIdentifier_assign_all.
    destruct (segments identifier) as [|x [|y rest]]; [done..|].
    simpl in Hlen. lia.
Qed.

Lemma parseIdentifier_size_bound_witness :
  length (parseIdentifier "/us/usc/t42/s1983") = 2 /\
  parseIdentifier "/us" = JsObject.empty.
Proof.
  destruct (parseIdentifier_size_bound "/us/usc/t42/s1983") as (_ & Heq & _).
  destruct (parseIdentifier_size_bound "/us") as (_ & _ & Hempty).
  split.
  - apply Heq; apply (bool_decide_unpack _); vm_compute; exact I.
  - apply Hempty. vm_compute. lia.
Defined.



End ParseIdentifierExtras.

(* ================================================================== *)
(** * Further properties of the Shadow Code Graph *)
(* ================================================================== *)

Section JsMapOrder.
Context {V : Type}.
Implicit Types (m : JsMap.t V) (k : string) (v : V).

Lemma jsmap_get_elem_of m k v : JsMap.get k m = Some v -> (k, v) ∈ m.
Proof.
  induction m as [|[k' v'] m IH]; simpl; [done|].
  destruct (String.eqb_spec k' k) as [->|Hne].
  - intros [= ->]. by apply elem_of_cons; left.
  - intros H. apply elem_of_cons; right. by apply IH.
Qed.

Lemma jsmap_elem_of_get m k v :
  NoDup (JsMap.keys m) -> (k, v) ∈ m -> JsMap.get k m = Some v.
Proof.
  unfold JsMap.keys. induction m as [|[k' v'] m IH]; intros Hnd Hin.
  - by apply elem_of_nil in Hin.
  - rewrite fmap_cons in Hnd. apply NoDup_cons in Hnd as [Hk Hnd]. simpl.
    apply elem_of_cons in Hin as [[= -> ->]|Hin].
    + by rewrite eqb_string_true.
    + destruct (String.eqb_spec k' k) as [->|Hne]; [|by apply IH].
      exfalso. apply Hk. apply list_elem_of_fmap. by exists (k, v).
Qed.

(** Setting a key twice is setting it once, to the later value. *)
Lemma jsmap_set_set m k v v' : JsMap.set k v (JsMap.set k v' m) = JsMap.set k v m.
Proof.
  induction m as [|[k0 v0] m IH]; simpl.
  - by rewrite eqb_string_true.
  - destruct (String.eqb_spec k0 k) as [->|Hne]; simpl.
    + by rewrite eqb_string_true.
    + rewrite eqb_string_false by done. by rewrite IH.
Qed.

(** A new key goes to the end. *)
Lemma jsmap_set_absent m k v : JsMap.get k m = None -> JsMap.set k v m = m ++ [(k, v)].
Proof.
  induction m as [|[k0 v0] m IH]; simpl; [done|].
  destruct (String.eqb k0 k); [done|]. intros H. by rewrite IH.
Qed.

(** A present key keeps its position. *)
Lemma jsmap_set_present m k v old :
  JsMap.get k m = Some old ->
  exists i, m !! i = Some (k, old) /\ JsMap.set k v m = <[i := (k, v)]> m.
Proof.
  induction m as [|[k0 v0] m IH]; simpl; [done|].
  destruct (String.eqb_spec k0 k) as [->|Hne].
  - intros [= ->]. by exists 0.
  - intros H. destruct (IH H) as (i & Hi & Hset). exists (S i).
    split; [done|]. simpl. by rewrite Hset.
Qed.

End JsMapOrder.

Section GraphExtras.
Import ShadowCodeGraph.
Implicit Types (g : ShadowCodeGraph.t) (o : op) (os : list op).

Lemma run_getNode os g identifier :
  getNode identifier (run os g) =
    match last_with_identifier identifier (added_nodes os) with
    | Some n => Some n
    | None => getNode identifier g
    end.
Proof.
  unfold last_with_identifier.
  revert g. induction os as [|o os IH]; intros g; [done|].
  rewrite run_cons, IH. destruct o as [node| | | | | | |]; try done.
  cbn [added_nodes].
  destruct (decide (USLMNode.identifier node = identifier)) as [Heq|Hne].
  - rewrite filter_cons_True by done. rewrite last_cons.
    destruct (last (filter _ (added_nodes os))); [done|].
    simpl. unfold getNode. simpl. rewrite <- Heq. apply jsmap_get_set_eq.
  - rewrite filter_cons_False by done.
    destruct (last (filter _ (added_nodes os))); [done|].
    simpl. unfold getNode. simpl. by apply jsmap_get_set_ne.
Qed.

Lemma last_with_identifier_is_Some identifier (ns : list USLMNode.t) :
  is_Some (last_with_identifier identifier ns) <->
  identifier ∈ USLMNode.identifier <$> ns.
Proof.
  unfold last_with_identifier. rewrite last_is_Some, list_elem_of_fmap. split.
  - intros Hne. destruct (filter _ ns) as [|n l] eqn:E; [done|].
    assert (n ∈ filter (fun n => USLMNode.identifier n = identifier) ns) as Hin.
    { rewrite E. by apply elem_of_cons; left. }
    apply list_elem_of_filter in Hin as [Hid Hin]. by exists n.
  - intros (n & -> & Hin) Hnil.
    by apply (filter_nil_not_elem_of _ _ n) in Hnil.
Qed.

(** X7. After any sequence of calls, [getNode] returns the node most
    recently passed to [addNode] under that identifier, whatever edges were
    added and whatever was queried in between; an identifier never added
    keeps what the store held before, which on a fresh store is nothing. *)
Theorem getNode_after_calls os identifier :
  (forall g,
     getNode identifier (run os g) =
       match last_with_identifier identifier (added_nodes os) with
       | Some n => Some n
       | None => getNode identifier g
       end) /\
  getNode identifier (run os create) =
    last_with_identifier identifier (added_nodes os).
Proof.
  split; [intros g; apply run_getNode|].
  rewrite run_getNode. by destruct (last_with_identifier _ _).
Qed.

(** X8. In every reachable store [getAllNodes] and [getNode] agree: a node
    is listed exactly when [getNode] of its own identifier returns it, a node
    found under an identifier carries that identifier, no two listed nodes
    share an identifier, and the list is as long as the map is large. *)
Theorem getAllNodes_consistent g :
  reachable g ->
  (forall n, n ∈ getAllNodes g <-> getNode (USLMNode.identifier n) g = Some n) /\
  (forall identifier n,
     getNode identifier g = Some n -> USLMNode.identifier n = identifier) /\
  NoDup (USLMNode.identifier <$> getAllNodes g) /\
  length (getAllNodes g) = nodeCount g.
Proof.
  intros Hreach. destruct (reachable_nodes_ok g Hreach) as [Hnd Hkeyed].
  unfold getAllNodes, getNode, nodeCount, JsMap.values, JsMap.size.
  unfold keyed_by_identifier in Hkeyed. rewrite Forall_forall in Hkeyed.
  assert (USLMNode.identifier <$> (nodes g).*2 = JsMap.keys (nodes g)) as Hids.
  { unfold JsMap.keys. rewrite <- list_fmap_compose. apply list_fmap_ext.
    intros i [k n] Hi. simpl. symmetry.
    apply (Hkeyed (k, n)). by eapply list_elem_of_lookup_2. }
  split_and!.
  - intros n. split.
    + intros Hin. apply list_elem_of_fmap in Hin as ([k n'] & -> & Hin).
      simpl. apply jsmap_elem_of_get; [done|].
      pose proof (Hkeyed _ Hin) as Hk. simpl in Hk. by subst k.
    + intros Hget. apply jsmap_get_elem_of in Hget.
      apply list_elem_of_fmap. by exists (USLMNode.identifier n, n).
  - intros identifier n Hget. apply jsmap_get_elem_of in Hget.
    symmetry. apply (Hkeyed _ Hget).
  - by rewrite Hids.
  - by rewrite length_fmap.
Qed.

Lemma getAllNodes_consistent_witness :
  getAllNodes (addNode section_1983_new (addNode section_1983_old create))
    = [section_1983_new] /\
  section_1983_new ∈
    getAllNodes (addNode section_1983_new (addNode section_1983_old create)).
Proof.
  split; [reflexivity|].
  destruct (getAllNodes_consistent
              (addNode section_1983_new (addNode section_1983_old create)))
    as (Hlisted & _).
  - exists [AddNode section_1983_old; AddNode section_1983_new]. reflexivity.
  - apply Hlisted. reflexivity.
Defined.

(** X9. [addNode] keeps the insertion order of [getAllNodes]: a node with a
    new identifier is listed last and the count grows by one; a node with an
    identifier already present takes the place of the node it replaces, and
    every other position is unchanged. *)
Theorem addNode_insertion_order g (node : USLMNode.t) :
  (getNode (USLMNode.identifier node) g = None ->
   getAllNodes (addNode node g) = getAllNodes g ++ [node] /\
   nodeCount (addNode node g) = S (nodeCount g)) /\
  (forall old, getNode (USLMNode.identifier node) g = Some old ->
   exists i, getAllNodes g !! i = Some old /\
             getAllNodes (addNode node g) = <[i := node]> (getAllNodes g)).
Proof.
  unfold getNode, getAllNodes, nodeCount, JsMap.values. simpl. split.
  - intros Habsent. split; [|by apply jsmap_size_set_absent].
    by rewrite jsmap_set_absent, fmap_app.
  - intros old Hold.
    destruct (jsmap_set_present _ _ node _ Hold) as (i & Hi & Hset).
    exists i. split.
    + rewrite list_lookup_fmap. unfold JsMap.t in Hi. by rewrite Hi.
    + rewrite Hset. apply (list_fmap_insert snd).
Qed.

Lemma addNode_insertion_order_witness :
  getAllNodes (addNode section_1983_old create) = [section_1983_old] /\
  exists i, getAllNodes (addNode section_1983_old create) !! i = Some section_1983_old /\
    getAllNodes (addNode section_1983_new (addNode section_1983_old create)) =
      <[i := section_1983_new]> (getAllNodes (addNode section_1983_old create)).
Proof.
  destruct (addNode_insertion_order create section_1983_old) as (Hnew & _).
  destruct (addNode_insertion_order (addNode section_1983_old create) section_1983_new)
    as (_ & Hold).
  split.
  - apply Hnew. reflexivity.
  - apply Hold. reflexivity.
Defined.

(** X10. Adding two nodes with the same identifier one after the other
    leaves the store exactly as adding the second one alone: nothing of the
    first survives, not even its place in the order. *)
Theorem addNode_absorbs g (first second : USLMNode.t) :
  USLMNode.identifier first = USLMNode.identifier second ->
  addNode second (addNode first g) = addNode second g.
Proof.
  intros Hid. unfold addNode. simpl. f_equal. rewrite Hid.
  apply jsmap_set_set.
Qed.

Lemma addNode_absorbs_witness :
  addNode section_1983_new (addNode section_1983_old createGraph) =
  addNode section_1983_new createGraph.
Proof. apply addNode_absorbs. reflexivity. Defined.

(** X11. After any sequence of calls, [getEdgesFrom] and [getEdgesTo] return
    what they returned before followed by the matching edges passed to
    [addEdge] since, in call order; adding nodes never changes either
    answer. *)
Theorem getEdges_after_calls os g (identifier : string) :
  getEdgesFrom identifier (run os g) =
    getEdgesFrom identifier g ++
    filter (fun e => USLMEdge.from e = identifier) (added_edges os) /\
  getEdgesTo identifier (run os g) =
    getEdgesTo identifier g ++
    filter (fun e => USLMEdge.to e = identifier) (added_edges os) /\
  (forall node : USLMNode.t,
     getEdgesFrom identifier (addNode node g) = getEdgesFrom identifier g /\
     getEdgesTo identifier (addNode node g) = getEdgesTo identifier g).
Proof.
  unfold getEdgesFrom, getEdgesTo. rewrite run_edges, !filter_app. done.
Qed.

(** X12. The number of nodes of a store built from a fresh graph is the
    number of distinct identifiers passed to [addNode]. *)
Theorem nodeCount_distinct_identifiers os :
  nodeCount (run os create) =
    length (remove_dups (USLMNode.identifier <$> added_nodes os)).
Proof.
  unfold nodeCount. rewrite jsmap_size_keys. apply Permutation_length.
  apply NoDup_Permutation.
  - apply (reachable_nodes_ok (run os create)). by exists os.
  - apply NoDup_remove_dups.
  - intros k. rewrite elem_of_remove_dups, <- last_with_identifier_is_Some.
    rewrite <- jsmap_get_is_Some.
    change (JsMap.get k (nodes (run os create))) with (getNode k (run os create)).
    rewrite run_getNode. destruct (last_with_identifier k (added_nodes os)).
    + split; by eexists.
    + split; intros [? ?]; done.
Qed.

End GraphExtras.

(* ================================================================== *)
(** * Closed forms *)
(* ================================================================== *)

Section ClosedForms.
Import ShadowCodeGraph.

Lemma first_occurrences_ext seen seen' ks :
  (forall x, x ∈ seen <-> x ∈ seen') ->
  first_occurrences seen ks = first_occurrences seen' ks.
Proof.
  revert seen seen'. induction ks as [|k ks IH]; intros seen seen' H; [done|].
  simpl. destruct (decide (k ∈ seen)) as [Hin|Hnotin].
  - rewrite decide_True by by apply H. by apply IH.
  - rewrite decide_False by by rewrite <- H. f_equal. apply IH.
    intros x. rewrite !elem_of_cons, H. done.
Qed.

Lemma omap_ext_elem_of {A B} (f f' : A -> option B) (l : list A) :
  (forall x, x ∈ l -> f x = f' x) -> omap f l = omap f' l.
Proof.
  induction l as [|x l IH]; intros H; [done|]. csimpl.
  rewrite (H x) by (by apply elem_of_cons; left).
  rewrite IH; [done|]. intros y Hy. apply H. by apply elem_of_cons; right.
Qed.

(** A map without repeated keys is its keys paired with their lookups. *)
Lemma jsmap_entries_by_keys {V} (m : JsMap.t V) :
  NoDup (JsMap.keys m) ->
  omap (fun k => pair k <$> JsMap.get k m) (JsMap.keys m) = m.
Proof.
  unfold JsMap.keys. induction m as [|[k v] m IH]; intros Hnd; [done|].
  rewrite fmap_cons in Hnd. apply NoDup_cons in Hnd as [Hk Hnd].
  rewrite fmap_cons. csimpl. rewrite eqb_string_true. csimpl. f_equal.
  rewrite <- (IH Hnd) at 2. apply omap_ext_elem_of. intros k' Hk'.
  rewrite eqb_string_false; [done|]. by intros ->.
Qed.


Lemma run_keys os g seen :
  (forall x, x ∈ seen <-> x ∈ JsMap.keys (nodes g)) ->
  JsMap.keys (nodes (run os g)) =
    JsMap.keys (nodes g) ++
    first_occurrences seen (USLMNode.identifier <$> added_nodes os).
Proof.
  revert g seen. induction os as [|o os IH]; intros g seen Hseen.
  - simpl. by rewrite app_nil_r.
  - rewrite run_cons.
    destruct o as [node|edge| | | | | |];
      [|exact (IH (addEdge edge g) seen Hseen)|exact (IH g seen Hseen)..].
    cbn [added_nodes]. rewrite fmap_cons. cbn [first_occurrences].
    pose proof (jsmap_keys_set (nodes g) (USLMNode.identifier node) node) as Hkeys.
    change (nodes (step (AddNode node) g).1)
      with (JsMap.set (USLMNode.identifier node) node (nodes g)) in *.
    destruct (decide (USLMNode.identifier node ∈ seen)) as [Hin|Hnotin].
    + rewrite decide_True in Hkeys by by apply Hseen.
      rewrite (IH _ seen); simpl; rewrite Hkeys; done.
    + rewrite decide_False in Hkeys by by rewrite <- Hseen.
      rewrite (IH _ (USLMNode.identifier node :: seen)); simpl; rewrite Hkeys.
      * by rewrite <- app_assoc.
      * intros x. rewrite elem_of_cons, elem_of_app, list_elem_of_singleton, Hseen.
        tauto.
Qed.


(** X14. The list [getAllNodes] returns on a store built from a fresh
    graph, in full: one node per distinct identifier passed to [addNode], in
    order of the identifiers' first [addNode] call, each being the node most
    recently added under its identifier. *)
Theorem getAllNodes_closed_form (os : list op) :
  USLMNode.identifier <$> getAllNodes (run os create) =
    first_occurrences [] (USLMNode.identifier <$> added_nodes os) /\
  getAllNodes (run os create) =
    omap (fun identifier => last_with_identifier identifier (added_nodes os))
         (first_occurrences [] (USLMNode.identifier <$> added_nodes os)).
Proof.
  assert (JsMap.keys (nodes (run os create)) =
          first_occurrences [] (USLMNode.identifier <$> added_nodes os)) as Hkeys.
  { by rewrite (run_keys os create []). }
  destruct (reachable_nodes_ok (run os create)) as [Hnd Hkeyed]; [by exists os|].
  assert (getAllNodes (run os create) =
          omap (fun identifier => getNode identifier (run os create))
               (JsMap.keys (nodes (run os create)))) as Hall.
  { unfold getAllNodes, JsMap.values.
    rewrite <- (jsmap_entries_by_keys (nodes (run os create)) Hnd) at 1.
    rewrite list_fmap_omap. apply omap_ext_elem_of. intros k _.
    unfold getNode. by destruct (JsMap.get k _). }
  split.
  - rewrite <- Hkeys. unfold getAllNodes, JsMap.values, JsMap.keys.
    rewrite <- list_fmap_compose. apply list_fmap_ext. intros i [k n] Hi. simpl.
    unfold keyed_by_identifier in Hkeyed. rewrite Forall_forall in Hkeyed.
    symmetry. apply (Hkeyed (k, n)). by eapply list_elem_of_lookup_2.
  - rewrite Hall, Hkeys. apply omap_ext_elem_of. intros k _.
    rewrite run_getNode. by destruct (last_with_identifier k _).
Qed.

End ClosedForms.
